(** * go-drive: permission resolution, cross-drive copy, content delivery
      and the local file-system drive

    A shallow embedding of [common/drive_utils.go] and of the [FsDrive]
    backend, with the properties of the design document stated over it.

    Conventions
    - Go's unsigned bitmasks are integers of [Z]; [a | b] is [Z.lor],
      [a & b] is [Z.land] and [^a] is [Z.lnot].  Every complement of the
      source is an operand of an [&] whose other operand is a mask, so the
      results never leave the width of the operands
      (see [PermissionsFacts.step_width]).
    - A Go slice passed to a function that writes through it is modelled by
      explicit state passing: the function returns the new contents of the
      backing array next to its result.
    - Code that talks to the outside (drives, the progress sink, the HTTP
      response) threads an explicit state and appends to an event trace. *)

From Stdlib Require Import ZArith List Bool String Ascii Lia Permutation Sorted.
From Stdlib Require Import DecimalString.
From stdpp Require Import base gmap strings.
Import ListNotations.
Local Open Scope Z_scope.

(* ===================================================================== *)
(** * Part I.  The embedding *)
(* ===================================================================== *)

(** ** 1. Permission resolution engine *)

Module Permissions.

(** Modelled from the spec: the bitmask type [types.Permission] and its
    constants are declared in package [types], which is not among the
    sources.  The design document says: an integer where each bit is one
    capability, [PermissionEmpty] the zero value, with read and write
    among the capabilities. *)
Definition Permission := Z.
Definition PermissionEmpty : Permission := 0.
Definition PermissionRead : Permission := 1.
Definition PermissionWrite : Permission := 2.

(** Modelled from the spec: the subject of a rule,
    [Anonymous | User(id) | Group(id)]. *)
Inductive Subject : Type :=
| Anonymous
| User (id : string)
| Group (id : string).

(** Modelled from the spec: [types.PathPermission] is declared in package
    [types], which is not among the sources.  The design document lists the
    attributes [path], [depth], [subject], [policy] (an ordinal used for
    tie-breaking), [permission] and a mode distinguishing Accept rules from
    Reject rules, where one rule may carry both semantics since
    [IsAccept()] and [IsReject()] are checked independently. *)
Record PathPermission : Type := mkPathPermission {
  Path : string;
  Depth : Z;
  RuleSubject : Subject;
  Policy : Z;
  RulePermission : Permission;
  Accept : bool;
  Reject : bool
}.

Definition IsForAnonymous (p : PathPermission) : bool :=
  match RuleSubject p with Anonymous => true | _ => false end.

Definition IsForUser (p : PathPermission) : bool :=
  match RuleSubject p with User _ => true | _ => false end.

Definition IsForGroup (p : PathPermission) : bool :=
  match RuleSubject p with Group _ => true | _ => false end.

Definition IsAccept (p : PathPermission) : bool := Accept p.
Definition IsReject (p : PathPermission) : bool := Reject p.

(** [pathPermissionLess], branch for branch. *)
Definition pathPermissionLess (a b : PathPermission) : bool :=
  if negb (Depth a =? Depth b) then Depth a >? Depth b
  else if IsForAnonymous a then
    if IsForAnonymous b then Policy a <? Policy b
    else false
  else
    if IsForAnonymous b then true
    else if IsForUser a then
      if IsForUser b then Policy a <? Policy b
      else true
    else
      if IsForUser b then false
      else Policy a <? Policy b.

(** ** [sort.Slice]

    The sort of Go's standard library is not stable.  On a short slice (up
    to six elements in every release, up to twelve since Go 1.19) it is the
    insertion sort below ([insertionSortLessFunc]: for each [i], swap
    element [j] with its left neighbour while [less(j, j-1)]); longer
    slices go through a Shell pass, quicksort or pattern-defeating
    quicksort, which may order tied elements differently.  The lemmas on
    [resolveLoop] below are stated for lists in any order, or in any order
    compatible with [pathPermissionLess], so the results do not depend on
    the sorting algorithm beyond the order it gives to tied rules. *)
Section Sort.
Context {A : Type} (less : A -> A -> bool).

(** The inner loop: [x] starts to the right of the sorted prefix, whose
    elements are held last-first in [rprefix], and moves left while it is
    less than its left neighbour. *)
Fixpoint sink (x : A) (rprefix : list A) : list A :=
  match rprefix with
  | [] => [x]
  | y :: rest => if less x y then y :: sink x rest else x :: rprefix
  end.

Definition insertionSort (items : list A) : list A :=
  rev (fold_left (fun rprefix x => sink x rprefix) items []).

End Sort.

Definition sort_Slice := @insertionSort.

(** ** [ResolveAcceptedPermissions] *)

(** The body of the [for ... range] loop on the pair
    [(acceptedPermission, rejectedPermission)]. *)
Definition resolveStep (st : Permission * Permission) (item : PathPermission)
  : Permission * Permission :=
  let '(acceptedPermission, rejectedPermission) := st in
  let acceptedPermission :=
    if IsAccept item
    then Z.lor acceptedPermission
               (Z.land (RulePermission item) (Z.lnot rejectedPermission))
    else acceptedPermission in
  if IsReject item
  then (Z.land acceptedPermission
               (Z.lnot (Z.land (RulePermission item) (Z.lnot acceptedPermission))),
        Z.lor rejectedPermission (RulePermission item))
  else (acceptedPermission, rejectedPermission).

Definition resolveLoop (items : list PathPermission)
  (st : Permission * Permission) : Permission * Permission :=
  fold_left resolveStep items st.

(** The function sorts the caller's slice in place and then folds it: the
    first component is the content of the slice after the call, the second
    the returned mask. *)
Definition ResolveAcceptedPermissions (items : list PathPermission)
  : list PathPermission * Permission :=
  let items := sort_Slice _ pathPermissionLess items in
  (items, fst (resolveLoop items (PermissionEmpty, PermissionEmpty))).

(** The returned mask alone. *)
Definition resolved (items : list PathPermission) : Permission :=
  snd (ResolveAcceptedPermissions items).

Definition rule (d : Z) (s : Subject) (pol : Z) (acc rej : bool) (p : Permission)
  : PathPermission :=
  mkPathPermission EmptyString d s pol p acc rej.

(** *** The order of [pathPermissionLess] *)

(** The precedence order in the words of the design document: deeper first;
    at equal depth the subject classes in the order User, Group, Anonymous;
    within one depth and class the lower policy first. *)
Definition subjectRank (p : PathPermission) : Z :=
  match RuleSubject p with
  | User _ => 0
  | Group _ => 1
  | Anonymous => 2
  end.

Definition precedes (a b : PathPermission) : bool :=
  (Depth b <? Depth a)
  || ((Depth a =? Depth b)
      && ((subjectRank a <? subjectRank b)
          || ((subjectRank a =? subjectRank b) && (Policy a <? Policy b)))).

(** Two rules tie when neither sorts before the other. *)
Definition tied (a b : PathPermission) : Prop :=
  pathPermissionLess a b = false /\ pathPermissionLess b a = false.

(** Capability bit [n] of a mask. *)
Definition hasBit (n : Z) (m : Permission) : bool := Z.testbit m n.

Definition acceptsBit (n : Z) (r : PathPermission) : bool :=
  IsAccept r && hasBit n (RulePermission r).

Definition rejectsBit (n : Z) (r : PathPermission) : bool :=
  IsReject r && hasBit n (RulePermission r).

(** What the loop does to one capability bit when it starts from empty
    masks: the bit is granted by the first rule that accepts it, unless a
    rule ahead of that one rejects it. *)
Fixpoint grants (n : Z) (items : list PathPermission) : bool :=
  match items with
  | [] => false
  | x :: rest => acceptsBit n x || (negb (rejectsBit n x) && grants n rest)
  end.

(** No rule sorts before a rule that stands to its left. *)
Definition ordered (items : list PathPermission) : Prop :=
  StronglySorted (fun a b => pathPermissionLess b a = false) items.

(** Rules that tie agree on being Accept rules. *)
Definition tiesAgree (items : list PathPermission) : Prop :=
  forall a b, In a items -> In b items -> tied a b -> IsAccept a = IsAccept b.

(** Rule [a] accepts bit [n] and no rule of [items] that rejects the bit
    sorts before [a]. *)
Definition unopposed (n : Z) (items : list PathPermission) (a : PathPermission)
  : Prop :=
  In a items /\ acceptsBit n a = true /\
  forall r, In r items -> rejectsBit n r = true -> pathPermissionLess r a = false.

(** The example of the design document: a deeper Accept of READ|WRITE for
    Anonymous and a shallower Reject of WRITE for a User. *)
Definition exampleRules : list PathPermission :=
  [ rule 2 Anonymous 1 true false (Z.lor PermissionRead PermissionWrite);
    rule 1 (User "u") 0 false true PermissionWrite ].

(** Two rules that tie and differ in mode. *)
Definition tieAccept : PathPermission :=
  rule 1 (User "u") 0 true false PermissionRead.
Definition tieReject : PathPermission :=
  rule 1 (User "u") 0 false true PermissionRead.


(** The union of the permissions of the Accept rules of a list. *)
Definition unionOfAccepts (items : list PathPermission) : Permission :=
  fold_right
    (fun r acc => if IsAccept r then Z.lor (RulePermission r) acc else acc)
    PermissionEmpty items.

(** Two Accept rules and no Reject rule. *)
Definition acceptOnly : list PathPermission :=
  [ rule 1 (Group "g") 1 true false 4; rule 3 Anonymous 1 true false 1 ].

(** A shallow Accept of two bits and a deeper Reject of one of them. *)
Definition shallowAcceptDeepReject : list PathPermission :=
  [ rule 1 (User "u") 1 true false 3; rule 2 Anonymous 0 false true 2 ].

End Permissions.

(** ** 2. Slash-separated paths

    [path.Clean] and [path.Join] of Go's standard library ([filepath.Clean]
    and [filepath.Join] on a Unix host), on strings. *)

Module Paths.

Local Open Scope string_scope.

Definition slash : ascii := "/"%char.
Definition backslash : ascii := ascii_of_nat 92.

(** [strings.Split] at the slash. *)
Fixpoint splitSlash (s : string) : list string :=
  match s with
  | EmptyString => [EmptyString]
  | String c rest =>
    if Ascii.eqb c slash then EmptyString :: splitSlash rest
    else match splitSlash rest with
         | [] => [String c EmptyString]
         | w :: ws => String c w :: ws
         end
  end.

Definition isRooted (path : string) : bool :=
  match path with
  | String c _ => Ascii.eqb c slash
  | EmptyString => false
  end.

(** One path element of the loop of [Clean]; [out] holds the elements kept so
    far, the last one first.  An empty element and [.] are dropped; [..]
    removes the last element when there is one to back up over, is kept on
    a relative path and is dropped at the root. *)
Definition cleanStep (rooted : bool) (out : list string) (elem : string)
  : list string :=
  if String.eqb elem EmptyString || String.eqb elem "." then out
  else if String.eqb elem ".." then
    match out with
    | top :: below => if String.eqb top ".." then elem :: out else below
    | [] => if rooted then [] else [elem]
    end
  else elem :: out.

Definition Clean (path : string) : string :=
  if String.eqb path EmptyString then "."
  else
    let rooted := isRooted path in
    let out := fold_left (cleanStep rooted) (splitSlash path) [] in
    let body := String.concat "/" (rev out) in
    if rooted then "/" ++ body
    else if String.eqb body EmptyString then "." else body.

(** [Join(a, b)] *)
Definition Join (a b : string) : string :=
  if negb (String.eqb a EmptyString) then Clean (a ++ "/" ++ b)
  else if negb (String.eqb b EmptyString) then Clean b
  else EmptyString.

(** [strings.HasPrefix] *)
Definition HasPrefix (s p : string) : bool := String.prefix p s.

(** [s[n:]] for [n <= len(s)] *)
Fixpoint dropBytes (n : nat) (s : string) : string :=
  match n, s with
  | O, _ => s
  | S n', String _ rest => dropBytes n' rest
  | S _, EmptyString => EmptyString
  end.

(** The loop that drops one leading slash after the other. *)
Fixpoint trimLeadingSlashes (s : string) : string :=
  match s with
  | String c rest => if Ascii.eqb c slash then trimLeadingSlashes rest else s
  | EmptyString => s
  end.

(** [strings.ReplaceAll] of every backslash by a slash. *)
Fixpoint backslashesToSlashes (s : string) : string :=
  match s with
  | String c rest =>
    String (if Ascii.eqb c backslash then slash else c) (backslashesToSlashes rest)
  | EmptyString => EmptyString
  end.

End Paths.

(** ** 3. Cross-drive copy engine *)

Module CopyEngine.

(** Modelled from the spec: the error kinds of the design document (package
    [common] declares the constructors [NewNotAllowedMessageError],
    [IsNotFoundError] and [task.ErrorCanceled] in files that are not among
    the sources). *)
Inductive Error : Type :=
| NotFound
| NotAllowed (msg : string)
| Unsupported
| RemoteApi (status : Z) (msg : string)
| Canceled
| IOError (msg : string).

Definition IsNotFoundError (e : Error) : bool :=
  match e with NotFound => true | _ => false end.

Inductive Result (A : Type) : Type :=
| Ok (a : A)
| Err (e : Error).
Arguments Ok {A} a.
Arguments Err {A} e.

(** Modelled from the spec: [types.EntryType], File or Directory. *)
Inductive EntryType : Type := TypeFile | TypeDir.

Definition IsFile (t : EntryType) : bool :=
  match t with TypeFile => true | TypeDir => false end.
Definition IsDir (t : EntryType) : bool :=
  match t with TypeDir => true | TypeFile => false end.

(** Modelled from the spec: the part of [types.IEntry] that [copyAll] uses.
    [Content] is [None] when the entry does not implement [types.IContent];
    otherwise it holds what staging the content into a temporary file
    ([CopyIContentToTempFile], run against a context whose [Progress] and
    [Total] do nothing) comes to: the staged bytes, or the error of the
    transport, a cancellation seen while staging included. *)
Record IEntry : Type := mkIEntry {
  Path : string;
  Name : string;
  Type_ : EntryType;
  Content : option (Result (list Byte.byte))
}.

(** [EntryNode]: an entry and its children. *)
#[local] Unset Elimination Schemes.
Inductive EntryNode : Type :=
| mkEntryNode (entry : IEntry) (children : list EntryNode).
#[local] Set Elimination Schemes.

Definition entryOf (n : EntryNode) : IEntry :=
  match n with mkEntryNode e _ => e end.
Definition childrenOf (n : EntryNode) : list EntryNode :=
  match n with mkEntryNode _ c => c end.

(** Modelled from the spec: the three operations of [types.IDrive] that
    [copyAll] calls, over the state [D] of the backend.  [Get] is a lookup;
    [MakeDir] and [Save] return the new state of the backend. *)
Class IDrive (D : Type) : Type := {
  Get : D -> string -> Result IEntry;
  MakeDir : D -> string -> Result IEntry * D;
  Save : D -> string -> list Byte.byte -> Result IEntry * D
}.

(** What the operation does to the outside, in the order it happens. *)
Inductive Event : Type :=
| EvTotal (count : Z)
| EvProgress (count : Z)
| EvMakeDir (to : string)
| EvSave (to : string) (file : list Byte.byte)
| EvCallback (entry : IEntry) (allProcessed : bool) (result : option Error).

(** The value returned by [copyAll]: processed count, the flag for fully
    processed, the error.  The count is a Go [int]; it counts the nodes of a
    tree held in memory and stays far from the bound, so it is an integer
    of [Z] here. *)
Definition Outcome : Type := Z * bool * option Error.

Inductive Flow : Type :=
| Return (o : Outcome)
| Continue.

Section CopyAll.
Context {D : Type} `{IDrive D}.

(** The [k]-th call of [ctx.Canceled()] made by [copyAll] answers
    [canceledAt k]. *)
Variable canceledAt : nat -> bool.
(** [CleanPath] of package [common], declared in a file that is not among
    the sources. *)
Variable CleanPath : string -> string.
Variable override : bool.
(** The callback: it may change the backend and returns an error or nil.  The
    context it is handed is a [ctxWrapper], whose [Progress] and [Total] do
    nothing. *)
Variable after : IEntry -> bool -> D -> option Error * D.
(** [entry.Drive().List(entry.Path())] on the source of the copy. *)
Variable List_ : IEntry -> Result (list IEntry).

Record State : Type := mkState {
  drive : D;
  polls : nat;
  trace : list Event
}.

Definition emit (ev : Event) (s : State) : State :=
  mkState (drive s) (polls s) (trace s ++ [ev]).

Definition ctx_Canceled (s : State) : bool * State :=
  (canceledAt (polls s), mkState (drive s) (S (polls s)) (trace s)).

Definition ctx_Progress (count : Z) (s : State) : State :=
  emit (EvProgress count) s.

Definition ctx_Total (count : Z) (s : State) : State :=
  emit (EvTotal count) s.

(** [buildEntriesTree].  The listing of the source is not known to be
    finite, so the recursion is bounded by [fuel]; [None] means that the
    bound was reached.  The node returned next to an error is dropped, no
    caller reads it. *)
Fixpoint buildEntriesTree (fuel : nat) (entry : IEntry) (total : Z) (s : State)
  {struct fuel} : option (Result EntryNode * State) :=
  match fuel with
  | O => None
  | S fuel =>
    let '(canceled, s) := ctx_Canceled s in
    if canceled then Some (Err Canceled, s)
    else if IsFile (Type_ entry) then Some (Ok (mkEntryNode entry []), s)
    else
      match List_ entry with
      | Err e => Some (Err e, s)
      | Ok entries =>
        let total := total + Z.of_nat (length entries) in
        let s := ctx_Total total s in
        let each :=
          fix each (entries : list IEntry) (s : State) {struct entries}
            : option (Result (list EntryNode) * State) :=
            match entries with
            | [] => Some (Ok [], s)
            | e :: rest =>
              match buildEntriesTree fuel e total s with
              | None => None
              | Some (Err err, s) => Some (Err err, s)
              | Some (Ok node, s) =>
                match each rest s with
                | None => None
                | Some (Err err, s) => Some (Err err, s)
                | Some (Ok nodes, s) => Some (Ok (node :: nodes), s)
                end
              end
            end in
        match each entries s with
        | None => None
        | Some (Err err, s) => Some (Err err, s)
        | Some (Ok children, s) => Some (Ok (mkEntryNode entry children), s)
        end
      end
  end.

Definition BuildEntriesTree (fuel : nat) (root : IEntry) (s : State)
  : option (Result EntryNode * State) :=
  let s := ctx_Total 1 s in
  buildEntriesTree fuel root 1 s.

(** The existence probe: [Ok None] when the destination does not exist,
    [Ok (Some dstType)] when it does. *)
Definition probe (newParent : bool) (to : string) (s : State)
  : Result (option EntryType) :=
  if newParent then Ok None
  else match Get (drive s) to with
       | Err e => if negb (IsNotFoundError e) then Err e else Ok None
       | Ok dst => Ok (Some (Type_ dst))
       end.

(** The head of the directory branch, up to the loop over the children:
    the value of [dirCreate], or the error to return. *)
Definition prepareDir (entry : IEntry) (to : string)
  (dst : option EntryType) (s : State) : Result bool * State :=
  match dst with
  | Some dstType =>
    if IsFile dstType
    then (Err (NotAllowed ("dest '" ++ to ++ "' is a file, but src '"
                             ++ Path entry ++ "' is a dir")%string), s)
    else (Ok false, s)
  | None =>
    let '(r, d) := MakeDir (drive s) to in
    let s := emit (EvMakeDir to) (mkState d (polls s) (trace s)) in
    match r with
    | Err e => (Err e, s)
    | Ok _ => (Ok true, s)
    end
  end.

(** The loop over the children; [rec] is [copyAll] itself.  An outcome
    without error means that the loop ran to its end. *)
Definition copyChildren
  (rec : EntryNode -> string -> bool -> State -> Outcome * State)
  (to : string) (dirCreate : bool)
  : list EntryNode -> Z -> bool -> State -> Outcome * State :=
  fix loop (children : list EntryNode) (processed : Z) (allProcessed : bool)
           (s : State) {struct children} : Outcome * State :=
    match children with
    | [] => ((processed, allProcessed, None), s)
    | e :: rest =>
      let '((p, r, err), s) :=
        rec e (CleanPath (Paths.Join to (Name (entryOf e)))) dirCreate s in
      match err with
      | Some err => ((processed, false, Some err), s)
      | None =>
        let processed := processed + p in
        let s := ctx_Progress processed s in
        loop rest processed (if negb r then false else allProcessed) s
      end
    end.

(** The file branch. *)
Definition copyFile (entry : IEntry) (to : string) (dst : option EntryType)
  (processed : Z) (s : State) : Flow * State :=
  let early :=
    match dst with
    | Some dstType =>
      if IsDir dstType
      then Some (processed, false,
                 Some (NotAllowed ("dest '" ++ to ++ "' is a dir, but src '"
                                     ++ Path entry ++ "' is a file")%string))
      else if negb override then Some (processed + 1, false, None)
      else None
    | None => None
    end in
  match early with
  | Some o => (Return o, s)
  | None =>
    match Content entry with
    | None =>
      (Return (processed, false,
               Some (NotAllowed ("file '" ++ Path entry
                                   ++ "' is not readable")%string)), s)
    | Some (Err e) => (Return (processed, false, Some e), s)
    | Some (Ok file) =>
      let '(r, d) := Save (drive s) to file in
      let s := emit (EvSave to file) (mkState d (polls s) (trace s)) in
      match r with
      | Err e => (Return (processed, false, Some e), s)
      | Ok _ => (Continue, s)
      end
    end
  end.

(** The tail of [copyAll]: the callback, then the count and its report. *)
Definition finish (entry : IEntry) (processed : Z) (allProcessed : bool)
  (s : State) : Outcome * State :=
  let '(e, d) := after entry allProcessed (drive s) in
  let s := emit (EvCallback entry allProcessed e)
                (mkState d (polls s) (trace s)) in
  match e with
  | Some e => ((processed, false, Some e), s)
  | None =>
    let processed := processed + 1 in
    let s := ctx_Progress processed s in
    ((processed, allProcessed, None), s)
  end.

Fixpoint copyAll (node : EntryNode) (to : string) (newParent : bool)
  (s : State) {struct node} : Outcome * State :=
  match node with
  | mkEntryNode entry children =>
    let processed := 0 in
    let '(canceled, s) := ctx_Canceled s in
    if canceled then ((processed, false, Some Canceled), s)
    else
      match probe newParent to s with
      | Err e => ((processed, false, Some e), s)
      | Ok dst =>
        let allProcessed := true in
        let '((processed, allProcessed, err), s) :=
          if IsDir (Type_ entry) then
            match prepareDir entry to dst s with
            | (Err e, s) => ((processed, false, Some e), s)
            | (Ok dirCreate, s) =>
              copyChildren copyAll to dirCreate children processed allProcessed s
            end
          else ((processed, allProcessed, None), s) in
        match err with
        | Some e => ((processed, false, Some e), s)
        | None =>
          let '(flow, s) :=
            if IsFile (Type_ entry) then copyFile entry to dst processed s
            else (Continue, s) in
          match flow with
          | Return o => (o, s)
          | Continue => finish entry processed allProcessed s
          end
        end
      end
  end.

End CopyAll.

Arguments State D : clear implicits.
Arguments mkState {D} drive polls trace.

Definition noCallback {D : Type} : IEntry -> bool -> D -> option Error * D :=
  fun _ _ d => (None, d).

(** [CopyAll]: the snapshot, then the replication from the root with
    [newParent] false; a nil callback is replaced by one that does nothing. *)
Definition CopyAll {D : Type} `{IDrive D}
  (canceledAt : nat -> bool) (CleanPath : string -> string)
  (List_ : IEntry -> Result (list IEntry)) (fuel : nat)
  (entry : IEntry) (to : string) (override : bool)
  (after : option (IEntry -> bool -> D -> option Error * D))
  (s : State D) : option (option Error * State D) :=
  match BuildEntriesTree canceledAt List_ fuel entry s with
  | None => None
  | Some (Err err, s) => Some (Some err, s)
  | Some (Ok tree, s) =>
    let after := match after with Some f => f | None => noCallback end in
    let '((_, _, err), s) :=
      copyAll canceledAt CleanPath override after tree to false s in
    Some (err, s)
  end.

(** ** A drive to run the engine on

    An in-memory backend: a finite map from destination paths to
    directories and files.  [MakeDir] returns the entry that is already
    there, as the drive interface asks. *)
Inductive MemObject : Type :=
| MemDir
| MemFile (content : list Byte.byte).

Definition memEntry (path : string) (o : MemObject) : IEntry :=
  match o with
  | MemDir => mkIEntry path path TypeDir None
  | MemFile content => mkIEntry path path TypeFile (Some (Ok content))
  end.

#[global] Instance memDrive : IDrive (gmap string MemObject) := {
  Get d path :=
    match d !! path with
    | Some o => Ok (memEntry path o)
    | None => Err NotFound
    end;
  MakeDir d path :=
    match d !! path with
    | Some o => (Ok (memEntry path o), d)
    | None => (Ok (memEntry path MemDir), <[path := MemDir]> d)
    end;
  Save d path file :=
    (Ok (memEntry path (MemFile file)), <[path := MemFile file]> d)
}.

Definition neverCanceled : nat -> bool := fun _ => false.

(** A stand-in for [CleanPath] in the runs below: the cleaned path without
    its leading slashes. *)
Definition exampleCleanPath (p : string) : string :=
  Paths.trimLeadingSlashes (Paths.Clean p).

Definition initial {D : Type} (d : D) : State D := mkState d O [].

Definition file (name : string) (content : list Byte.byte) : EntryNode :=
  mkEntryNode (mkIEntry name name TypeFile (Some (Ok content))) [].

Definition dir (name : string) (children : list EntryNode) : EntryNode :=
  mkEntryNode (mkIEntry name name TypeDir None) children.

(** The counts handed to [ctx.Progress], in order. *)
Definition progressCounts (t : list Event) : list Z :=
  flat_map (fun ev => match ev with EvProgress n => [n] | _ => [] end) t.

(** The entries handed to the callback, in order. *)
Definition callbackEntries (t : list Event) : list IEntry :=
  flat_map (fun ev => match ev with EvCallback e _ _ => [e] | _ => [] end) t.

Definition savedPaths (t : list Event) : list string :=
  flat_map (fun ev => match ev with EvSave to _ => [to] | _ => [] end) t.

Fixpoint nondecreasing (l : list Z) : bool :=
  match l with
  | x :: ((y :: _) as rest) => (x <=? y) && nondecreasing rest
  | _ => true
  end.

Definition threeFiles : EntryNode :=
  dir "src" [file "a" [Byte.x61]; file "b" [Byte.x62]; file "c" [Byte.x63]].

(** The listing of the source that [threeFiles] is the snapshot of. *)
Definition threeFilesListing (e : IEntry) : Result (list IEntry) :=
  if String.eqb (Path e) "src" then Ok (map entryOf (childrenOf threeFiles))
  else Err NotFound.






(** The nodes that [copyAll] visits: a node and, below a directory, the
    nodes of its children (the children of a file are not read). *)
Fixpoint nodeCount (n : EntryNode) : Z :=
  match n with
  | mkEntryNode e children =>
    if IsDir (Type_ e)
    then 1 + fold_right (fun c acc => nodeCount c + acc) 0 children
    else 1
  end.

(** The entries of those nodes, the children of a directory before the
    directory. *)
Fixpoint postorder (n : EntryNode) : list IEntry :=
  match n with
  | mkEntryNode e children =>
    (if IsDir (Type_ e)
     then fold_right (fun c acc => postorder c ++ acc) [] children
     else [])
    ++ [e]
  end.

(** The longest chain of nodes from the root down. *)
Fixpoint height (n : EntryNode) : nat :=
  match n with
  | mkEntryNode _ children =>
    S (fold_right (fun c acc => Nat.max (height c) acc) O children)
  end.

(** A tree that agrees with the listing [List_] of the source: a file has no
    children, and the children of any other node are the nodes of the
    entries that the listing gives for it, in that order. *)
Fixpoint isSnapshot (List_ : IEntry -> Result (list IEntry)) (n : EntryNode)
  : Prop :=
  match n with
  | mkEntryNode e children =>
    if IsFile (Type_ e) then children = []
    else List_ e = Ok (map entryOf children)
         /\ fold_right (fun c acc => isSnapshot List_ c /\ acc) True children
  end.

(** The loop over the entries in [buildEntriesTree], with the recursive call
    as the parameter [rec]. *)
Definition eachEntry {D : Type}
  (rec : IEntry -> Z -> State D -> option (Result EntryNode * State D))
  (total : Z)
  : list IEntry -> State D -> option (Result (list EntryNode) * State D) :=
  fix each (entries : list IEntry) (s : State D) {struct entries}
    : option (Result (list EntryNode) * State D) :=
    match entries with
    | [] => Some (Ok [], s)
    | e :: rest =>
      match rec e total s with
      | None => None
      | Some (Err err, s) => Some (Err err, s)
      | Some (Ok node, s) =>
        match each rest s with
        | None => None
        | Some (Err err, s) => Some (Err err, s)
        | Some (Ok nodes, s) => Some (Ok (node :: nodes), s)
        end
      end
    end.

(** The counts handed to [ctx.Total], in order. *)
Definition totalCounts (t : list Event) : list Z :=
  flat_map (fun ev => match ev with EvTotal n => [n] | _ => [] end) t.

(** A destination where [dst] is a directory. *)
Definition withDir : gmap string MemObject := {[ "dst"%string := MemDir ]}.

(** A step that leaves the drive alone and only reports totals. *)
Definition onlyTotals {D : Type} (s s' : State D) : Prop :=
  drive s' = drive s
  /\ exists totals, trace s' = trace s ++ map EvTotal totals.

(** A source whose listing fails. *)
Definition noListing (e : IEntry) : Result (list IEntry) := Err NotFound.

(** The replication of [threeFiles] into an empty drive with overwrite on. *)
Definition threeFilesRun : Outcome * State (gmap string MemObject) :=
  copyAll neverCanceled exampleCleanPath true noCallback threeFiles "dst"
    false (initial (∅ : gmap string MemObject)).

End CopyEngine.

(** ** 4. Content delivery *)

Module Delivery.

Import CopyEngine.

(** What [GetReader] hands out: the bytes the reader yields, the error it
    ends with if any, and whether it is an [io.ReadSeeker] as well. *)
Record Reader : Type := mkReader {
  readerBytes : list Byte.byte;
  readerError : option Error;
  readerSeeks : bool
}.

(** Modelled from the spec: the part of [types.IContent] that
    [DownloadIContent] uses.  [GetURL] answers the direct URL with the flag
    for must-proxy, or an error when the entry has no URL. *)
Record IContent : Type := mkIContent {
  GetURL : Result (string * bool);
  GetReader : Result Reader;
  ContentName : string;
  UpdatedAt : Z;
  Size : Z
}.

(** A response handed over to a handler of the standard library. *)
Inductive Served : Type :=
| Proxied (dest : string)
| ServedContent (name : string) (modTimeNanos : Z) (content : list Byte.byte).

(** [http.ResponseWriter], by the contract net/http documents for it:
    [Header()] returns the header map that [WriteHeader] will send, and
    changing that map after a call of [WriteHeader] or [Write] has no effect
    on the response (for a status outside 1xx, trailers apart); a second
    [WriteHeader] is ignored; [Write] sends the header with status 200
    first when none was sent. *)
Record ResponseWriter : Type := mkResponseWriter {
  header : gmap string string;
  sent : option (Z * gmap string string);
  body : list Byte.byte;
  served : list Served
}.

Definition freshResponse : ResponseWriter := mkResponseWriter ∅ None [] [].

Definition WriteHeader (code : Z) (w : ResponseWriter) : ResponseWriter :=
  match sent w with
  | Some _ => w
  | None => mkResponseWriter (header w) (Some (code, header w)) (body w) (served w)
  end.

Definition Header_Set (key value : string) (w : ResponseWriter) : ResponseWriter :=
  mkResponseWriter (<[key := value]> (header w)) (sent w) (body w) (served w).

Definition Write (bytes : list Byte.byte) (w : ResponseWriter) : ResponseWriter :=
  let w := WriteHeader 200 w in
  mkResponseWriter (header w) (sent w) (body w ++ bytes) (served w).

Definition serve (h : Served) (w : ResponseWriter) : ResponseWriter :=
  mkResponseWriter (header w) (sent w) (body w) (served w ++ [h]).

(** The status and the header that went out, if any. *)
Definition statusSent (w : ResponseWriter) : option Z :=
  match sent w with Some (code, _) => Some code | None => None end.

Definition headerSent (key : string) (w : ResponseWriter) : option string :=
  match sent w with Some (_, h) => h !! key | None => None end.

(** [io.Copy(w, reader)] *)
Definition io_Copy (w : ResponseWriter) (reader : Reader)
  : option Error * ResponseWriter :=
  (readerError reader,
   match readerBytes reader with
   | [] => w
   | bytes => Write bytes w
   end).

(** Arithmetic of [int64]: the result wraps around. *)
Definition int64 (z : Z) : Z := (z + 2 ^ 63) mod 2 ^ 64 - 2 ^ 63.

(** [strconv.FormatInt(n, 10)] *)
Definition FormatInt (n : Z) : string := NilZero.string_of_int (Z.to_int n).

Section Download.
(** [url.Parse] of the standard library. *)
Variable url_Parse : string -> Result string.

Definition DownloadIContent (content : IContent) (w : ResponseWriter)
  : option Error * ResponseWriter :=
  match GetURL content with
  | Ok (url, proxy) =>
    if proxy then
      match url_Parse url with
      | Err e => (Some e, w)
      | Ok dest => (None, serve (Proxied dest) w)
      end
    else
      let w := WriteHeader 302 w in
      let w := Header_Set "Location" url w in
      (None, w)
  | Err _ =>
    match GetReader content with
    | Err e => (Some e, w)
    | Ok reader =>
      if readerSeeks reader then
        (None,
         serve (ServedContent (ContentName content)
                  (int64 (UpdatedAt content * 1000000)) (readerBytes reader)) w)
      else
        let w := Header_Set "Content-Length" (FormatInt (Size content)) w in
        io_Copy w reader
    end
  end.

End Download.

(** An entry with the direct URL [url] that need not be proxied. *)
Definition direct (url : string) : IContent :=
  mkIContent (Ok (url, false)) (Err Unsupported) "f" 0 0.

Definition parseAny : string -> Result string := fun url => Ok url.

End Delivery.

(** ** 5. The local file-system drive *)

Module FsDrive.

Import CopyEngine.
Local Open Scope string_scope.

(** [os.FileInfo] *)
Record FileInfo : Type := mkFileInfo {
  fiSize : Z;
  fiIsDir : bool;
  fiModTime : Z
}.

(** The file system of the host: what is at each absolute, clean path. *)
Definition FileSystem : Type := gmap string FileInfo.

(** [FsDrive]: the absolute path of the root of the drive. *)
Record FsDrive : Type := mkFsDrive {
  path : string
}.

(** [fsFile]; the pointer to the drive is left out, there is one drive. *)
Record fsFile : Type := mkFsFile {
  f_path : string;
  size : Z;
  isDir : bool;
  modTime : Z
}.

Definition Type_ (f : fsFile) : EntryType :=
  if isDir f then TypeDir else TypeFile.

Definition Size (f : fsFile) : Z :=
  if IsDir (Type_ f) then -1 else size f.

(** A call returns an entry, an error, or panics. *)
Inductive Answer : Type :=
| Entry (f : fsFile)
| Failed (e : Error)
| Panic (msg : string).

(** [os.Stat]: [None] stands for the error that [os.IsNotExist] accepts.  The
    model has no other failure of the host. *)
Definition os_Stat (fs : FileSystem) (p : string) : option FileInfo :=
  fs !! Paths.Clean p.

(** Modelled from the spec: [utils.FileExists] is declared in a file that is
    not among the sources; the design document has [MakeDir] return the
    existing entry if one is already present, so the helper tells whether
    something is present at the path.  [NewFsDrive] tests the root of the
    drive with it, so it holds of directories as well as of files. *)
Definition FileExists (fs : FileSystem) (p : string) : bool :=
  match os_Stat fs p with Some _ => true | None => false end.

(** [filepath.Abs] of a path that is absolute already. *)
Definition filepath_Abs (p : string) : string := Paths.Clean p.

(** The parent directory of a clean absolute path. *)
Definition parentDir (p : string) : string :=
  Paths.Clean (p ++ "/..").

(** [os.Mkdir]: the parent must be a directory and the path free. *)
Definition os_Mkdir (fs : FileSystem) (p : string) (now : Z)
  : option FileSystem :=
  match fs !! parentDir p, fs !! Paths.Clean p with
  | Some parent, None =>
    if fiIsDir parent
    then Some (<[Paths.Clean p := mkFileInfo 4096 true now]> fs)
    else None
  | _, _ => None
  end.

Section Drive.
Variable f : FsDrive.

Definition newFsFile (p : string) (file : FileInfo) : Answer :=
  let p := filepath_Abs p in
  if negb (Paths.HasPrefix p (path f)) then Panic "invalid file key"
  else
    let p := Paths.backslashesToSlashes p in
    let p := Paths.dropBytes (String.length (path f)) p in
    let p := Paths.trimLeadingSlashes p in
    Entry (mkFsFile p (fiSize file) (fiIsDir file) (fiModTime file)).

Definition getPath (p : string) : string :=
  let p := Paths.Clean p in
  Paths.Join (path f) p.

Definition Get (fs : FileSystem) (p : string) : Answer :=
  let p := getPath p in
  match os_Stat fs p with
  | None => Failed NotFound
  | Some stat => newFsFile p stat
  end.

(** [MakeDir], with the file system after the call; [now] is the clock of
    the host. *)
Definition MakeDir (now : Z) (fs : FileSystem) (p : string)
  : Answer * FileSystem :=
  let p := getPath p in
  if FileExists fs p then (Get fs p, fs)
  else
    match os_Mkdir fs p now with
    | None => (Failed (IOError "mkdir"), fs)
    | Some fs =>
      match os_Stat fs p with
      | None => (Failed (IOError "stat"), fs)
      | Some stat => (newFsFile p stat, fs)
      end
    end.



(** [os.OpenFile] with [O_CREATE|O_RDWR|O_TRUNC]: the parent must be a
    directory and the path must not be one; the file is created or emptied. *)
Definition os_OpenFile (fs : FileSystem) (p : string) (now : Z)
  : option FileSystem :=
  match fs !! parentDir p with
  | Some parent =>
    if fiIsDir parent then
      match fs !! Paths.Clean p with
      | Some info =>
        if fiIsDir info then None
        else Some (<[Paths.Clean p := mkFileInfo 0 false now]> fs)
      | None => Some (<[Paths.Clean p := mkFileInfo 0 false now]> fs)
      end
    else None
  | None => None
  end.

(** [requireFile]; the messages are the keys handed to [i18n.T]. *)
Definition requireFile (fs : FileSystem) (p : string) (requireExists : bool)
  : option Error :=
  let exists_ := FileExists fs p in
  if requireExists && negb exists_ then Some NotFound
  else if negb requireExists && exists_
  then Some (NotAllowed "drive.file_exists")
  else None.



(** Modelled from the spec: [drive_util.Copy] is declared in a file that is
    not among the sources; the design document has the copy run through a
    chunked loop that returns the bytes written and an error.  Here it
    writes the bytes that the reader yields and returns the reader's
    error. *)
Definition drive_util_Copy (fs : FileSystem) (p : string) (now : Z)
  (reader : Delivery.Reader) : option Error * FileSystem :=
  (Delivery.readerError reader,
   <[Paths.Clean p :=
       mkFileInfo (Z.of_nat (length (Delivery.readerBytes reader))) false now]>
     fs).

(** [Save], with the file system after the call. *)
Definition Save (now : Z) (fs : FileSystem) (p : string) (override : bool)
  (reader : Delivery.Reader) : Answer * FileSystem :=
  let p := getPath p in
  match (if negb override then requireFile fs p false else None) with
  | Some e => (Failed e, fs)
  | None =>
    match os_OpenFile fs p now with
    | None => (Failed (IOError "open"), fs)
    | Some fs =>
      let '(e, fs) := drive_util_Copy fs p now reader in
      match e with
      | Some e => (Failed e, fs)
      | None =>
        match os_Stat fs p with
        | None => (Failed (IOError "stat"), fs)
        | Some stat => (newFsFile p stat, fs)
        end
      end
    end
  end.

End Drive.

(** A drive rooted at [/data] that holds the directory [docs]. *)
Definition dataDrive : FsDrive := mkFsDrive "/data".

Definition dataFs : FileSystem :=
  {[ "/data" := mkFileInfo 4096 true 1000;
     "/data/docs" := mkFileInfo 4096 true 2000 ]}.

End FsDrive.

(** ** 6. Unwrapping entries *)

Module Wrappers.

Section GetIEntry.
Context {A : Type}.

(** An entry that carries an [A], plain or an [IEntryWrapper] around the
    entry its [GetIEntry()] returns, which may be nil.  The type has no
    cyclic chain of wrappers, on which the loop of the source would not
    end. *)
#[local] Unset Elimination Schemes.
Inductive Entry : Type :=
| Plain (a : A)
| Wrapper (a : A) (inner : option Entry).
#[local] Set Elimination Schemes.

(** [test != nil && test(entry)]; the entry handed to [test] may be nil. *)
Definition passes (test : option (option Entry -> bool)) (entry : option Entry)
  : bool :=
  match test with
  | Some t => t entry
  | None => false
  end.

(** What follows the loop: nil under a test, the entry without one. *)
Definition afterLoop (test : option (option Entry -> bool))
  (entry : option Entry) : option Entry :=
  match test with
  | Some _ => None
  | None => entry
  end.

(** The loop, from a non-nil entry. *)
Fixpoint unwrap (test : option (option Entry -> bool)) (entry : Entry)
  {struct entry} : option Entry :=
  if passes test (Some entry) then Some entry
  else
    match entry with
    | Wrapper _ inner =>
      match inner with
      | Some e => unwrap test e
      | None =>
        (* the next round runs on nil, which is no wrapper *)
        if passes test None then None else afterLoop test None
      end
    | Plain _ => afterLoop test (Some entry)
    end.

Definition GetIEntry (entry : option Entry)
  (test : option (option Entry -> bool)) : option Entry :=
  match entry with
  | None => None
  | Some e => unwrap test e
  end.

(** The entry and what it wraps, outermost first. *)
Fixpoint layers (entry : Entry) : list Entry :=
  entry ::
  match entry with
  | Wrapper _ (Some e) => layers e
  | _ => []
  end.

Definition isPlain (entry : Entry) : bool :=
  match entry with Plain _ => true | Wrapper _ _ => false end.

End GetIEntry.

Arguments Entry A : clear implicits.

(** A test on the payload, false on nil. *)
Definition onPayload {A : Type} (f : A -> bool) (e : option (Entry A)) : bool :=
  match e with
  | Some (Plain a) | Some (Wrapper a _) => f a
  | None => false
  end.

Definition wrapped3 : Entry nat :=
  Wrapper 1%nat (Some (Wrapper 2%nat (Some (Plain 3%nat)))).

End Wrappers.

(** ** 7. Copying content *)

Module Staging.

Import CopyEngine Delivery.

(** The [task.Context] of a copy: how often [Canceled] was asked and the
    counts handed to [Progress]. *)
Record Ctx : Type := mkCtx {
  ctxPolls : nat;
  ctxProgress : list Z
}.

(** The directory of temporary files: the files by name and the name the
    next file gets. *)
Record TempDir : Type := mkTempDir {
  tempFiles : gmap nat (list Byte.byte);
  nextTemp : nat
}.

(** What a copy returns: the count, the error, what the writer holds, the
    context. *)
Definition Copied : Type := (Z * option Error) * list Byte.byte * Ctx.

Section Copy.
(** The [k]-th call of [ctx.Canceled()] answers [canceledAt k]. *)
Variable canceledAt : nat -> bool.
(** [http.Get]: the status code and the body of the response, or the error
    of the request. *)
Variable http_Get : string -> Result (Z * Reader).
(** The errors, if any, of [ioutil.TempFile] and of [file.Seek]. *)
Variable tempFileError : option Error.
Variable seekError : option Error.

Definition ctx_Canceled (c : Ctx) : bool * Ctx :=
  (canceledAt (ctxPolls c), mkCtx (S (ctxPolls c)) (ctxProgress c)).

Definition ctx_Progress (n : Z) (c : Ctx) : Ctx :=
  mkCtx (ctxPolls c) (ctxProgress c ++ [n]).

(** [io.CopyBuffer(dst, src, buf)] copies until the source is at its end or
    an error occurs, and returns the number of bytes copied and the error;
    the reader is at its end afterwards.  The bytes of a [Reader] are those
    that get across before its error. *)
Definition io_CopyBuffer (dst : list Byte.byte) (src : Reader)
  : (Z * option Error) * list Byte.byte * Reader :=
  ((Z.of_nat (length (readerBytes src)), readerError src),
   dst ++ readerBytes src,
   mkReader [] (readerError src) (readerSeeks src)).

(** The loop of [CopyWithProgress], bounded by [fuel].  The [err] that
    [io.CopyBuffer] assigns is the loop's own variable, declared by [:=]
    inside the loop body; the named result [err] of the function is never
    assigned, so the bare [return] after a [break] returns nil.  The count
    is an [int64] far from its bound, an integer of [Z] here. *)
Fixpoint copyLoop (fuel : nat) (written : Z) (dst : list Byte.byte)
  (src : Reader) (ctx : Ctx) {struct fuel} : option Copied :=
  match fuel with
  | O => None
  | S fuel =>
    let '(canceled, ctx) := ctx_Canceled ctx in
    if canceled then Some ((written, Some Canceled), dst, ctx)
    else
      let '((w, err), dst, src) := io_CopyBuffer dst src in
      match err with
      | Some _ => Some ((written, None), dst, ctx)
      | None =>
        if w =? 0 then Some ((written, None), dst, ctx)
        else
          let written := written + w in
          let ctx := ctx_Progress written ctx in
          copyLoop fuel written dst src ctx
      end
  end.

Definition CopyWithProgress (fuel : nat) (dst : list Byte.byte) (src : Reader)
  (ctx : Ctx) : option Copied :=
  copyLoop fuel 0 dst src ctx.

Definition CopyIContent (fuel : nat) (content : IContent)
  (w : list Byte.byte) (ctx : Ctx) : option Copied :=
  match GetURL content with
  | Ok (url, _) =>
    match http_Get url with
    | Err e => Some ((-1, Some e), w, ctx)
    | Ok (status, body) =>
      if negb (status =? 200)
      then Some ((-1, Some (RemoteApi status "failed to copy file")), w, ctx)
      else CopyWithProgress fuel w body ctx
    end
  | Err _ =>
    match GetReader content with
    | Err e => Some ((-1, Some e), w, ctx)
    | Ok reader => CopyWithProgress fuel w reader ctx
    end
  end.

(** [CopyIContentToTempFile]: the name of the staged file, or the error; the
    file is created empty under a fresh name, filled by [CopyIContent] and
    removed again when the copy or the seek fails. *)
Definition CopyIContentToTempFile (fuel : nat) (content : IContent)
  (ctx : Ctx) (t : TempDir) : option (Result nat * Ctx * TempDir) :=
  match tempFileError with
  | Some e => Some (Err e, ctx, t)
  | None =>
    let name := nextTemp t in
    match CopyIContent fuel content [] ctx with
    | None => None
    | Some ((_, Some e), _, ctx) =>
      Some (Err e, ctx, mkTempDir (delete name (tempFiles t)) (S name))
    | Some ((_, None), bytes, ctx) =>
      match seekError with
      | Some e =>
        Some (Err e, ctx, mkTempDir (delete name (tempFiles t)) (S name))
      | None =>
        Some (Ok name, ctx, mkTempDir (<[name := bytes]> (tempFiles t)) (S name))
      end
    end
  end.

End Copy.

Definition neverCanceled : nat -> bool := fun _ => false.
Definition noHttp : string -> Result (Z * Reader) := fun _ => Err Unsupported.

Definition helloBytes : list Byte.byte := [Byte.x68; Byte.x69].

(** A reader that gets two bytes across and then fails. *)
Definition brokenReader : Reader :=
  mkReader helloBytes (Some (IOError "reset")) false.

Definition goodReader : Reader := mkReader helloBytes None false.

Definition streamed (r : Reader) : IContent :=
  mkIContent (Err Unsupported) (Ok r) "f" 0 2.

Definition freshCtx : Ctx := mkCtx O [].
Definition emptyTempDir : TempDir := mkTempDir ∅ O.

(** A server that answers every request with status 404. *)
Definition http404 : string -> Result (Z * Reader) :=
  fun _ => Ok (404, goodReader).

(** Content with neither a URL nor a reader. *)
Definition unreadable : IContent :=
  mkIContent (Err Unsupported) (Err (NotAllowed "no reader")) "f" 0 0.

End Staging.

(* ===================================================================== *)
(** * Part II.  The properties *)
(* ===================================================================== *)

(** ** 1. Permission resolution engine *)

Module PermissionsFacts.

Import Permissions.

Lemma less_precedes a b : pathPermissionLess a b = precedes a b.
Proof.
  unfold pathPermissionLess, precedes, IsForAnonymous, IsForUser, subjectRank.
  destruct (Z.eqb_spec (Depth a) (Depth b)) as [E | E]; simpl.
  - rewrite E, Z.ltb_irrefl; simpl.
    destruct (RuleSubject a), (RuleSubject b); simpl; try reflexivity;
      now rewrite ?orb_false_r.
  - rewrite orb_false_r. unfold Z.gtb, Z.ltb.
    rewrite (Z.compare_antisym (Depth a) (Depth b)).
    now destruct (Depth a ?= Depth b).
Qed.

Lemma less_iff a b :
  pathPermissionLess a b = true <->
  Depth b < Depth a
  \/ (Depth a = Depth b
      /\ (subjectRank a < subjectRank b
          \/ (subjectRank a = subjectRank b /\ Policy a < Policy b))).
Proof.
  rewrite less_precedes. unfold precedes.
  rewrite orb_true_iff, andb_true_iff, orb_true_iff, andb_true_iff.
  rewrite !Z.ltb_lt, !Z.eqb_eq. tauto.
Qed.

Lemma less_false_iff a b :
  pathPermissionLess a b = false <->
  Depth a < Depth b
  \/ (Depth a = Depth b
      /\ (subjectRank b < subjectRank a
          \/ (subjectRank a = subjectRank b /\ Policy b <= Policy a))).
Proof.
  rewrite <- not_true_iff_false, less_iff. lia.
Qed.

Lemma less_irrefl a : pathPermissionLess a a = false.
Proof. apply less_false_iff. lia. Qed.

Lemma less_asym a b :
  pathPermissionLess a b = true -> pathPermissionLess b a = false.
Proof. rewrite less_iff, less_false_iff. lia. Qed.

Lemma less_trans a b c :
  pathPermissionLess a b = true -> pathPermissionLess b c = true ->
  pathPermissionLess a c = true.
Proof. rewrite !less_iff. lia. Qed.

Lemma less_negtrans a b c :
  pathPermissionLess a b = false -> pathPermissionLess b c = false ->
  pathPermissionLess a c = false.
Proof. rewrite !less_false_iff. lia. Qed.

Lemma tied_iff a b :
  tied a b <->
  Depth a = Depth b /\ subjectRank a = subjectRank b /\ Policy a = Policy b.
Proof. unfold tied. rewrite !less_false_iff. lia. Qed.

(** *** The loop, bit by bit *)

Lemma reject_refinement a p : Z.land a (Z.lnot (Z.land p (Z.lnot a))) = a.
Proof.
  apply Z.bits_inj'. intros n Hn.
  rewrite Z.land_spec, Z.lnot_spec, Z.land_spec, Z.lnot_spec by assumption.
  now destruct (Z.testbit a n), (Z.testbit p n).
Qed.

Lemma resolveStep_eq acc rej item :
  resolveStep (acc, rej) item =
  (if IsAccept item
   then Z.lor acc (Z.land (RulePermission item) (Z.lnot rej)) else acc,
   if IsReject item then Z.lor rej (RulePermission item) else rej).
Proof.
  unfold resolveStep. destruct (IsReject item); [| reflexivity].
  now rewrite reject_refinement.
Qed.

Lemma resolveStep_bits n acc rej item :
  0 <= n ->
  hasBit n (fst (resolveStep (acc, rej) item))
    = hasBit n acc || (acceptsBit n item && negb (hasBit n rej))
  /\ hasBit n (snd (resolveStep (acc, rej) item))
    = hasBit n rej || rejectsBit n item.
Proof.
  intros Hn. rewrite resolveStep_eq. unfold hasBit, acceptsBit, rejectsBit, hasBit.
  simpl. split.
  - destruct (IsAccept item); simpl.
    + now rewrite Z.lor_spec, Z.land_spec, Z.lnot_spec.
    + now rewrite orb_false_r.
  - destruct (IsReject item); simpl.
    + now rewrite Z.lor_spec.
    + now rewrite orb_false_r.
Qed.

Lemma resolveLoop_bits n items : forall acc rej,
  0 <= n ->
  hasBit n (fst (resolveLoop items (acc, rej)))
    = hasBit n acc || (negb (hasBit n rej) && grants n items).
Proof.
  unfold resolveLoop.
  induction items as [| x rest IH]; intros acc rej Hn; cbn [fold_left grants].
  - cbn [fst]. now rewrite andb_false_r, orb_false_r.
  - destruct (resolveStep_bits n acc rej x Hn) as [Ha Hr].
    destruct (resolveStep (acc, rej) x) as [acc' rej'].
    cbn [fst snd] in Ha, Hr.
    rewrite IH, Ha, Hr by assumption.
    destruct (hasBit n acc), (hasBit n rej), (acceptsBit n x),
      (rejectsBit n x), (grants n rest); reflexivity.
Qed.

Lemma resolveLoop_empty_bits n items :
  0 <= n ->
  hasBit n (fst (resolveLoop items (PermissionEmpty, PermissionEmpty)))
    = grants n items.
Proof.
  intros Hn. rewrite resolveLoop_bits by assumption.
  unfold hasBit, PermissionEmpty. now rewrite Z.testbit_0_l.
Qed.

Lemma hasBit_neg n m : n < 0 -> hasBit n m = false.
Proof. apply Z.testbit_neg_r. Qed.

Lemma grants_app n l1 l2 :
  grants n (l1 ++ l2)
    = grants n l1 || (forallb (fun r => negb (rejectsBit n r)) l1 && grants n l2).
Proof.
  induction l1 as [| x l1 IH]; simpl; [reflexivity |].
  rewrite IH.
  destruct (acceptsBit n x), (rejectsBit n x), (grants n l1); reflexivity.
Qed.

Lemma grants_accepts n items :
  grants n items = true ->
  exists r, In r items /\ acceptsBit n r = true.
Proof.
  induction items as [| x rest IH]; simpl; [discriminate |].
  intros H. apply orb_true_iff in H. destruct H as [H | H].
  - exists x. auto.
  - apply andb_true_iff in H. destruct H as [_ H].
    destruct (IH H) as (r & Hin & Hr). exists r. auto.
Qed.

(** *** The sort *)

Lemma sink_perm {A} (less : A -> A -> bool) x rp :
  Permutation (sink less x rp) (x :: rp).
Proof.
  induction rp as [| y rest IH]; simpl; [reflexivity |].
  destruct (less x y); [| reflexivity].
  rewrite IH. apply perm_swap.
Qed.

Lemma insertionSort_perm {A} (less : A -> A -> bool) items :
  Permutation (insertionSort less items) items.
Proof.
  unfold insertionSort. rewrite <- Permutation_rev.
  assert (G : forall rp,
    Permutation (fold_left (fun rprefix x => sink less x rprefix) items rp)
                (items ++ rp)).
  { induction items as [| x rest IH]; intros rp; simpl; [reflexivity |].
    rewrite IH, sink_perm. symmetry. apply Permutation_middle. }
  rewrite G. now rewrite app_nil_r.
Qed.

Section SortFacts.
Context {A : Type} (less : A -> A -> bool).
Hypothesis less_asym' : forall a b, less a b = true -> less b a = false.
Hypothesis less_negtrans' :
  forall a b c, less a b = false -> less b c = false -> less a c = false.

Lemma sink_sorted x rp :
  StronglySorted (fun u v => less u v = false) rp ->
  StronglySorted (fun u v => less u v = false) (sink less x rp).
Proof.
  induction 1 as [| y rest Hs IH Hall]; simpl.
  - repeat constructor.
  - destruct (less x y) eqn:E.
    + constructor; [exact IH |].
      apply List.Forall_forall. intros z Hz.
      apply (Permutation_in _ (sink_perm less x rest)) in Hz.
      destruct Hz as [<- | Hz]; [now apply less_asym' |].
      rewrite List.Forall_forall in Hall. now apply Hall.
    + constructor; [now constructor |].
      constructor; [exact E |].
      apply List.Forall_forall. intros z Hz. rewrite List.Forall_forall in Hall.
      apply (less_negtrans' x y z); auto.
Qed.

Lemma StronglySorted_snoc (R : A -> A -> Prop) l x :
  StronglySorted R l -> Forall (fun y => R y x) l ->
  StronglySorted R (l ++ [x]).
Proof.
  induction 1 as [| y rest Hs IH Hall]; intros Hx; simpl.
  - repeat constructor.
  - inversion Hx; subst. constructor; [now apply IH |].
    apply Forall_app. split; [assumption | now repeat constructor].
Qed.

Lemma StronglySorted_rev (R : A -> A -> Prop) l :
  StronglySorted R l -> StronglySorted (fun a b => R b a) (rev l).
Proof.
  induction 1 as [| y rest Hs IH Hall]; simpl; [constructor |].
  apply StronglySorted_snoc; [exact IH |].
  apply List.Forall_forall. intros z Hz. apply in_rev in Hz.
  rewrite List.Forall_forall in Hall. now apply Hall.
Qed.

Lemma insertionSort_sorted items :
  StronglySorted (fun a b => less b a = false) (insertionSort less items).
Proof.
  unfold insertionSort.
  apply (StronglySorted_rev (fun u v => less u v = false)).
  assert (G : forall rp,
    StronglySorted (fun u v => less u v = false) rp ->
    StronglySorted (fun u v => less u v = false)
      (fold_left (fun rprefix x => sink less x rprefix) items rp)).
  { induction items as [| x rest IH]; intros rp Hrp; simpl; [exact Hrp |].
    apply IH. now apply sink_sorted. }
  apply G. constructor.
Qed.

End SortFacts.

Lemma sort_Slice_perm items :
  Permutation (sort_Slice _ pathPermissionLess items) items.
Proof. apply insertionSort_perm. Qed.

Lemma sort_Slice_ordered items :
  ordered (sort_Slice _ pathPermissionLess items).
Proof.
  apply insertionSort_sorted; [exact less_asym | exact less_negtrans].
Qed.

Lemma resolved_bits n items :
  0 <= n ->
  hasBit n (resolved items) = grants n (sort_Slice _ pathPermissionLess items).
Proof. intros Hn. unfold resolved. simpl. now apply resolveLoop_empty_bits. Qed.

(** *** What an ordered list grants *)

Lemma grants_unopposed n items :
  ordered items -> grants n items = true -> exists a, unopposed n items a.
Proof.
  induction 1 as [| x rest Hs IH Hall]; simpl; [discriminate |].
  rewrite List.Forall_forall in Hall.
  intros H. apply orb_true_iff in H. destruct H as [H | H].
  - exists x. split; [now left |]. split; [exact H |].
    intros r [<- | Hr] _; [apply less_irrefl | now apply Hall].
  - apply andb_true_iff in H. destruct H as [Hx H].
    destruct (IH H) as (a & Hin & Ha & Hno).
    exists a. split; [now right |]. split; [exact Ha |].
    intros r [<- | Hr] Hrej; [| now apply Hno].
    rewrite Hrej in Hx. discriminate.
Qed.

Lemma unopposed_grants n items a :
  ordered items -> tiesAgree items -> unopposed n items a ->
  grants n items = true.
Proof.
  induction 1 as [| x rest Hs IH Hall]; intros Hties (Hin & Ha & Hno).
  - destruct Hin.
  - simpl. rewrite List.Forall_forall in Hall.
    destruct (acceptsBit n x) eqn:Ex; [reflexivity |]. simpl.
    destruct Hin as [-> | Hin]; [congruence |].
    assert (Hrx : rejectsBit n x = false).
    { destruct (rejectsBit n x) eqn:Er; [| reflexivity]. exfalso.
      assert (T : tied x a).
      { split; [apply Hno; [now left | exact Er] | now apply Hall]. }
      apply Hties in T; [| now left | now right].
      unfold acceptsBit, rejectsBit in *.
      apply andb_true_iff in Ha, Er. destruct Ha as [Ha1 Ha2], Er as [_ Er].
      rewrite T, Ha1, Er in Ex. discriminate. }
    rewrite Hrx. simpl. apply IH.
    + intros u v Hu Hv. apply Hties; now right.
    + split; [exact Hin |]. split; [exact Ha |].
      intros r Hr. apply Hno. now right.
Qed.

Lemma unopposed_perm n l1 l2 a :
  Permutation l1 l2 -> unopposed n l1 a -> unopposed n l2 a.
Proof.
  intros P (Hin & Ha & Hno). split; [now apply (Permutation_in _ P) |].
  split; [exact Ha |]. intros r Hr. apply Hno.
  now apply (Permutation_in _ (Permutation_sym P)).
Qed.

Lemma tiesAgree_perm l1 l2 :
  Permutation l1 l2 -> tiesAgree l1 -> tiesAgree l2.
Proof.
  intros P H a b Ha Hb. apply H; now apply (Permutation_in _ (Permutation_sym P)).
Qed.

Lemma step_width w acc rej item :
  0 <= w ->
  0 <= acc < 2 ^ w -> 0 <= rej < 2 ^ w -> 0 <= RulePermission item < 2 ^ w ->
  let st := resolveStep (acc, rej) item in
  0 <= fst st < 2 ^ w /\ 0 <= snd st < 2 ^ w.
Proof.
  intros Hw Ha Hr Hp. cbv zeta. rewrite resolveStep_eq. cbn [fst snd].
  assert (L : forall x y, 0 <= x < 2 ^ w -> 0 <= y < 2 ^ w ->
                          0 <= Z.lor x y < 2 ^ w).
  { intros x y Hx Hy.
    assert (H0 : 0 <= Z.lor x y) by (apply Z.lor_nonneg; lia).
    split; [exact H0 |].
    destruct (Z.eq_dec (Z.lor x y) 0) as [-> | Hne]; [lia |].
    assert (Hlog : forall z, 0 <= z < 2 ^ w -> 0 < w -> Z.log2 z < w).
    { intros z Hz Hw'. destruct (Z.eq_dec z 0) as [-> | Hz0]; [exact Hw' |].
      apply Z.log2_lt_pow2; lia. }
    assert (Hw' : 0 < w).
    { destruct (Z.eq_dec w 0) as [-> | Hw0]; [| lia].
      exfalso. apply Hne. replace x with 0 by lia. replace y with 0 by lia.
      reflexivity. }
    apply Z.log2_lt_pow2; [lia |].
    rewrite Z.log2_lor by lia.
    apply Z.max_lub_lt; now apply Hlog. }
  assert (D : forall x y, 0 <= x < 2 ^ w -> 0 <= Z.land x (Z.lnot y) < 2 ^ w).
  { intros x y Hx.
    assert (E : Z.land x (Z.lnot y) = Z.land x (Z.lnot y) mod 2 ^ w).
    { apply Z.bits_inj'. intros n Hn.
      destruct (Z.lt_ge_cases n w) as [Hlt | Hge].
      - now rewrite Z.mod_pow2_bits_low.
      - rewrite Z.mod_pow2_bits_high by lia.
        rewrite Z.land_spec.
        replace (Z.testbit x n) with false; [reflexivity |].
        symmetry. destruct (Z.eq_dec x 0) as [-> | Hx0];
          [apply Z.testbit_0_l |].
        apply Z.bits_above_log2; [lia |].
        assert (Z.log2 x < w) by (apply Z.log2_lt_pow2; lia). lia. }
    rewrite E. apply Z.mod_pos_bound. apply Z.pow_pos_nonneg; lia. }
  split.
  - destruct (IsAccept item); [apply L; [exact Ha | now apply D] | exact Ha].
  - destruct (IsReject item); [now apply L | exact Hr].
Qed.

(** Whatever algorithm sorted them: two ordered arrangements of the same
    rules fold to the same mask when tied rules agree on being Accept
    rules. *)
Lemma resolveLoop_ordered_perm (s1 s2 : list PathPermission) :
  Permutation s1 s2 -> ordered s1 -> ordered s2 -> tiesAgree s1 ->
  fst (resolveLoop s1 (PermissionEmpty, PermissionEmpty))
  = fst (resolveLoop s2 (PermissionEmpty, PermissionEmpty)).
Proof.
  intros P12 O1 O2 T1.
  assert (T2 : tiesAgree s2) by now apply (tiesAgree_perm s1).
  apply Z.bits_inj'. intros n Hn.
  pose proof (resolveLoop_empty_bits n s1 Hn) as B1.
  pose proof (resolveLoop_empty_bits n s2 Hn) as B2.
  unfold hasBit in B1, B2. rewrite B1, B2.
  destruct (grants n s1) eqn:E1, (grants n s2) eqn:E2; try reflexivity.
  - apply grants_unopposed in E1; [| exact O1]. destruct E1 as [a Ha].
    apply (unopposed_perm _ _ _ _ P12) in Ha.
    apply unopposed_grants in Ha; [congruence | exact O2 | exact T2].
  - apply grants_unopposed in E2; [| exact O2]. destruct E2 as [a Ha].
    apply (unopposed_perm _ _ _ _ (Permutation_sym P12)) in Ha.
    apply unopposed_grants in Ha; [congruence | exact O1 | exact T1].
Qed.

Lemma resolved_perm (l1 l2 : list PathPermission) :
  Permutation l1 l2 -> tiesAgree l1 -> resolved l1 = resolved l2.
Proof.
  intros P Hties. unfold resolved. cbn [ResolveAcceptedPermissions snd].
  apply resolveLoop_ordered_perm.
  - now rewrite !sort_Slice_perm.
  - apply sort_Slice_ordered.
  - apply sort_Slice_ordered.
  - apply (tiesAgree_perm l1); [| exact Hties].
    symmetry. apply sort_Slice_perm.
Qed.

(** ** The properties of the design document *)

(** C7 (sort order).  [pathPermissionLess] orders every pair of rules as the
    design document says: the deeper rule first whatever the subjects; at
    equal depth a rule for a User or a Group before a rule for Anonymous; at
    equal depth a User rule before a Group rule; and at equal depth and
    equal subject class the rule of lower policy first. *)
Theorem pathPermissionLess_sort_order (a b : PathPermission) :
  (Depth a > Depth b ->
     pathPermissionLess a b = true /\ pathPermissionLess b a = false)
  /\ (Depth a = Depth b -> IsForAnonymous a = false -> IsForAnonymous b = true ->
     pathPermissionLess a b = true /\ pathPermissionLess b a = false)
  /\ (Depth a = Depth b -> IsForUser a = true -> IsForGroup b = true ->
     pathPermissionLess a b = true /\ pathPermissionLess b a = false)
  /\ (Depth a = Depth b -> subjectRank a = subjectRank b ->
     pathPermissionLess a b = (Policy a <? Policy b))
  /\ pathPermissionLess a b = precedes a b.
Proof.
  split; [| split; [| split; [| split]]].
  - intros H. rewrite less_iff, less_false_iff. lia.
  - unfold IsForAnonymous. intros H Ha Hb.
    rewrite less_iff, less_false_iff. unfold subjectRank.
    destruct (RuleSubject a), (RuleSubject b); try discriminate; lia.
  - unfold IsForUser, IsForGroup. intros H Ha Hb.
    rewrite less_iff, less_false_iff. unfold subjectRank.
    destruct (RuleSubject a), (RuleSubject b); try discriminate; lia.
  - intros H H0. rewrite less_precedes. unfold precedes.
    rewrite H, H0, !Z.ltb_irrefl, !Z.eqb_refl. reflexivity.
  - apply less_precedes.
Qed.

Lemma pathPermissionLess_sort_order_witness :
  Depth (rule 2 Anonymous 5 true false 1) > Depth (rule 1 (User "u") 0 false true 2)
  /\ pathPermissionLess (rule 2 Anonymous 5 true false 1)
                        (rule 1 (User "u") 0 false true 2) = true
  /\ pathPermissionLess (rule 1 (User "u") 0 false true 2)
                        (rule 2 Anonymous 5 true false 1) = false.
Proof.
  assert (H : Depth (rule 2 Anonymous 5 true false 1)
              > Depth (rule 1 (User "u") 0 false true 2)) by reflexivity.
  split; [exact H |].
  exact (proj1 (pathPermissionLess_sort_order
                  (rule 2 Anonymous 5 true false 1)
                  (rule 1 (User "u") 0 false true 2)) H).
Defined.

(** C10 (provenance of accepted bits).  Every capability bit of the mask
    returned by [ResolveAcceptedPermissions] is a bit of the permission of
    an input rule for which [IsAccept] holds; hence an input without Accept
    rules, the empty one included, yields [PermissionEmpty]. *)
Theorem resolved_bits_from_accept_rules (items : list PathPermission) :
  (forall n, hasBit n (resolved items) = true ->
     exists r, In r items /\ IsAccept r = true
               /\ hasBit n (RulePermission r) = true)
  /\ ((forall r, In r items -> IsAccept r = false) ->
      resolved items = PermissionEmpty).
Proof.
  assert (G : forall n, hasBit n (resolved items) = true ->
     exists r, In r items /\ IsAccept r = true
               /\ hasBit n (RulePermission r) = true).
  { intros n Hn. destruct (Z.lt_ge_cases n 0) as [Hneg | Hpos].
    - rewrite hasBit_neg in Hn by assumption. discriminate.
    - rewrite resolved_bits in Hn by assumption.
      apply grants_accepts in Hn. destruct Hn as (r & Hin & Hr).
      apply andb_true_iff in Hr. exists r. split; [| exact Hr].
      now apply (Permutation_in _ (sort_Slice_perm items)). }
  split; [exact G |].
  intros Hno. apply Z.bits_inj'. intros n Hn.
  unfold PermissionEmpty. rewrite Z.testbit_0_l.
  destruct (Z.testbit (resolved items) n) eqn:E; [| reflexivity].
  destruct (G n E) as (r & Hin & Hacc & _).
  rewrite (Hno r Hin) in Hacc. discriminate.
Qed.

Lemma resolved_bits_from_accept_rules_witness :
  hasBit 1 (resolved exampleRules) = true
  /\ exists r, In r exampleRules /\ IsAccept r = true
               /\ hasBit 1 (RulePermission r) = true.
Proof.
  assert (H : hasBit 1 (resolved exampleRules) = true) by reflexivity.
  split; [exact H |].
  exact (proj1 (resolved_bits_from_accept_rules exampleRules) 1 H).
Defined.

Lemma resolved_nil : resolved [] = PermissionEmpty.
Proof. reflexivity. Qed.

(** C1, as stated, fails on the example of the design document: the deeper
    Accept rule is folded first and the later Reject leaves the bits that
    are already accepted in place, so the result keeps WRITE. *)
Lemma example_keeps_write : resolved exampleRules <> PermissionRead.
Proof. vm_compute. discriminate. Qed.

(** C1 (permanent reject), amended.  Once the rule at some position of the
    sorted slice rejects bit [n], the rules after it no longer change that
    bit: the returned mask has the bit exactly when the mask accumulated up
    to and including that rule has it, and then the bit was accepted by a
    rule sorted before the rejecting one or by the rejecting rule itself,
    when that rule is an Accept rule as well.  On the two-rule example the
    result is READ|WRITE. *)
Theorem reject_is_permanent :
  (forall items l1 r l2 n,
     fst (ResolveAcceptedPermissions items) = l1 ++ r :: l2 ->
     rejectsBit n r = true ->
     hasBit n (resolved items)
       = hasBit n (fst (resolveLoop (l1 ++ [r]) (PermissionEmpty, PermissionEmpty)))
     /\ (hasBit n (resolved items) = true ->
         IsAccept r = true \/ exists a, In a l1 /\ acceptsBit n a = true))
  /\ resolved exampleRules = Z.lor PermissionRead PermissionWrite.
Proof.
  split; [| reflexivity].
  intros items l1 r l2 n Hsort Hrej.
  destruct (Z.lt_ge_cases n 0) as [Hneg | Hpos].
  { rewrite !hasBit_neg by assumption. split; [reflexivity | discriminate]. }
  rewrite resolved_bits, resolveLoop_empty_bits by assumption.
  simpl in Hsort. rewrite Hsort, !grants_app. cbn [grants]. rewrite Hrej.
  cbn [negb andb]. rewrite !orb_false_r. split; [reflexivity |].
  intros H. apply orb_true_iff in H. destruct H as [H | H].
  - right. now apply grants_accepts.
  - left. apply andb_true_iff in H. destruct H as [_ H].
    unfold acceptsBit in H. now apply andb_true_iff in H.
Qed.

Lemma reject_is_permanent_witness :
  fst (ResolveAcceptedPermissions exampleRules)
    = [rule 2 Anonymous 1 true false 3] ++ rule 1 (User "u") 0 false true 2 :: []
  /\ rejectsBit 1 (rule 1 (User "u") 0 false true 2) = true
  /\ hasBit 1 (resolved exampleRules)
     = hasBit 1 (fst (resolveLoop
                        ([rule 2 Anonymous 1 true false 3]
                           ++ [rule 1 (User "u") 0 false true 2])
                        (PermissionEmpty, PermissionEmpty))).
Proof.
  split; [reflexivity |]. split; [reflexivity |].
  exact (proj1 (proj1 reject_is_permanent exampleRules
                  [rule 2 Anonymous 1 true false 3]
                  (rule 1 (User "u") 0 false true 2) [] 1
                  eq_refl eq_refl)).
Defined.

(** C2, as stated, fails: an Accept rule and a Reject rule of the same depth,
    subject class and policy tie, the sort leaves them in the order of the
    input, and the fold grants the bit only when the Accept rule is first. *)
Lemma resolve_depends_on_input_order :
  ~ (forall l1 l2 : list PathPermission,
       Permutation l1 l2 -> resolved l1 = resolved l2).
Proof.
  intros H.
  specialize (H [tieAccept; tieReject] [tieReject; tieAccept] (perm_swap _ _ _)).
  vm_compute in H. discriminate.
Qed.

(** C2 (order invariance), amended.  Two input sequences that are
    permutations of one another resolve to the same mask provided the rules
    that tie on depth, subject class and policy agree on being Accept
    rules. *)
Theorem resolve_order_invariant (l1 l2 : list PathPermission) :
  Permutation l1 l2 -> tiesAgree l1 -> resolved l1 = resolved l2.
Proof. apply resolved_perm. Qed.

Lemma exampleRules_tiesAgree : tiesAgree exampleRules.
Proof.
  intros a b [<- | [<- | []]] [<- | [<- | []]] [T1 T2];
    try reflexivity; vm_compute in T1, T2; discriminate.
Qed.

Lemma resolve_order_invariant_witness :
  Permutation exampleRules (rev exampleRules)
  /\ tiesAgree exampleRules
  /\ resolved exampleRules = resolved (rev exampleRules).
Proof.
  split; [apply Permutation_rev |]. split; [exact exampleRules_tiesAgree |].
  exact (resolve_order_invariant exampleRules (rev exampleRules)
           (Permutation_rev exampleRules) exampleRules_tiesAgree).
Defined.

(** When [IsAccept] is a function of the policy alone, rules that tie agree
    on it and the order of the input never matters. *)
Corollary mode_by_policy_order_invariant (l1 l2 : list PathPermission) :
  (forall a b, In a l1 -> In b l1 -> Policy a = Policy b ->
               IsAccept a = IsAccept b) ->
  Permutation l1 l2 -> resolved l1 = resolved l2.
Proof.
  intros H P. apply resolved_perm; [exact P |].
  intros a b Ha Hb T. apply H; try assumption. now apply tied_iff in T.
Qed.

(** C9, as stated, fails: the call reorders the caller's slice. *)
Lemma resolve_reorders_caller_slice :
  fst (ResolveAcceptedPermissions (rev exampleRules)) <> rev exampleRules.
Proof. vm_compute. discriminate. Qed.

(** C9 (effects of resolving), amended.  The only effect of
    [ResolveAcceptedPermissions] is on the caller's slice, which it sorts in
    place: after the call the slice holds the same rules, each as often as
    before, in the order of [pathPermissionLess]; the returned mask is the
    fold of that sorted slice. *)
Theorem resolve_sorts_caller_slice (items : list PathPermission) :
  let after := fst (ResolveAcceptedPermissions items) in
  Permutation after items
  /\ length after = length items
  /\ ordered after
  /\ snd (ResolveAcceptedPermissions items)
     = fst (resolveLoop after (PermissionEmpty, PermissionEmpty)).
Proof.
  cbv zeta. simpl. split; [apply sort_Slice_perm |].
  split; [apply Permutation_length, sort_Slice_perm |].
  split; [apply sort_Slice_ordered | reflexivity].
Qed.


(** ** Further properties of the resolution *)

(** X1.  [pathPermissionLess] is a strict weak order, which is what
    [sort.Slice] asks of its comparison: no rule sorts before itself, the
    relation is transitive, and so is being not-before. *)
Theorem pathPermissionLess_strict_weak_order :
  (forall a, pathPermissionLess a a = false)
  /\ (forall a b c, pathPermissionLess a b = true ->
                    pathPermissionLess b c = true ->
                    pathPermissionLess a c = true)
  /\ (forall a b c, pathPermissionLess a b = false ->
                    pathPermissionLess b c = false ->
                    pathPermissionLess a c = false).
Proof.
  split; [exact less_irrefl |]. split; [exact less_trans | exact less_negtrans].
Qed.

Lemma resolveLoop_width w items : forall acc rej,
  0 <= w ->
  (forall r, In r items -> 0 <= RulePermission r < 2 ^ w) ->
  0 <= acc < 2 ^ w -> 0 <= rej < 2 ^ w ->
  0 <= fst (resolveLoop items (acc, rej)) < 2 ^ w.
Proof.
  unfold resolveLoop.
  induction items as [| x rest IH]; intros acc rej Hw Hall Ha Hr; [exact Ha |].
  cbn [fold_left].
  destruct (step_width w acc rej x Hw Ha Hr (Hall x (or_introl eq_refl)))
    as [Ha' Hr'].
  destruct (resolveStep (acc, rej) x) as [acc' rej']. cbn [fst snd] in Ha', Hr'.
  apply IH; auto. intros r Hin. apply Hall. now right.
Qed.

(** X2.  The returned mask stays within the width of the permissions: when
    every rule's permission fits [w] bits, so does the result, so the
    integers of the model never leave the range of the unsigned type. *)
Theorem resolved_within_width (w : Z) (items : list PathPermission) :
  0 <= w ->
  (forall r, In r items -> 0 <= RulePermission r < 2 ^ w) ->
  0 <= resolved items < 2 ^ w.
Proof.
  intros Hw Hall. unfold resolved. cbn [ResolveAcceptedPermissions snd].
  apply resolveLoop_width; try assumption.
  - intros r Hin. apply Hall.
    now apply (Permutation_in _ (sort_Slice_perm items)).
  - unfold PermissionEmpty. split; [lia | apply Z.pow_pos_nonneg; lia].
  - unfold PermissionEmpty. split; [lia | apply Z.pow_pos_nonneg; lia].
Qed.

Lemma exampleRules_fit_8 :
  forall r, In r exampleRules -> 0 <= RulePermission r < 2 ^ 8.
Proof. intros r [<- | [<- | []]]; vm_compute; split; congruence. Qed.

Lemma resolved_within_width_witness :
  0 <= 8
  /\ (forall r, In r exampleRules -> 0 <= RulePermission r < 2 ^ 8)
  /\ 0 <= resolved exampleRules < 2 ^ 8.
Proof.
  split; [lia |]. split; [exact exampleRules_fit_8 |].
  exact (resolved_within_width 8 exampleRules ltac:(lia) exampleRules_fit_8).
Defined.

Lemma grants_no_reject n items :
  (forall r, In r items -> IsReject r = false) ->
  grants n items = existsb (acceptsBit n) items.
Proof.
  induction items as [| x rest IH]; intros Hno; [reflexivity |].
  cbn [grants existsb]. unfold rejectsBit at 1.
  rewrite (Hno x (or_introl eq_refl)). cbn [andb negb].
  rewrite IH; [reflexivity |]. intros r Hin. apply Hno. now right.
Qed.

Lemma unionOfAccepts_bits n items :
  hasBit n (unionOfAccepts items) = existsb (acceptsBit n) items.
Proof.
  induction items as [| x rest IH]; cbn [unionOfAccepts fold_right existsb].
  - apply Z.testbit_0_l.
  - fold (unionOfAccepts rest). unfold acceptsBit at 1.
    destruct (IsAccept x); cbn [andb orb].
    + unfold hasBit in *. now rewrite Z.lor_spec, IH.
    + exact IH.
Qed.

Lemma existsb_perm {A} (f : A -> bool) l1 l2 :
  Permutation l1 l2 -> existsb f l1 = existsb f l2.
Proof.
  induction 1; cbn [existsb]; try congruence.
  now destruct (f x), (f y).
Qed.

(** X3.  When no rule of the input is a Reject rule, the result is the union
    of the permissions of the Accept rules, whatever their depth, subject
    and order. *)
Theorem resolved_without_rejects (items : list PathPermission) :
  (forall r, In r items -> IsReject r = false) ->
  resolved items = unionOfAccepts items.
Proof.
  intros Hno. apply Z.bits_inj'. intros n Hn.
  change (hasBit n (resolved items) = hasBit n (unionOfAccepts items)).
  rewrite resolved_bits, unionOfAccepts_bits by assumption.
  rewrite grants_no_reject.
  - apply existsb_perm, sort_Slice_perm.
  - intros r Hin. apply Hno.
    now apply (Permutation_in _ (sort_Slice_perm items)).
Qed.

Lemma acceptOnly_no_reject : forall r, In r acceptOnly -> IsReject r = false.
Proof. intros r [<- | [<- | []]]; reflexivity. Qed.

Lemma resolved_without_rejects_witness :
  (forall r, In r acceptOnly -> IsReject r = false)
  /\ resolved acceptOnly = unionOfAccepts acceptOnly.
Proof.
  split; [exact acceptOnly_no_reject |].
  exact (resolved_without_rejects acceptOnly acceptOnly_no_reject).
Defined.

(** X4.  A reject of higher precedence wins: when a rule that rejects bit [n]
    sorts before every rule that accepts it, the result does not have the
    bit. *)
Theorem earlier_reject_denies (items : list PathPermission) (r : PathPermission)
  (n : Z) :
  In r items -> rejectsBit n r = true ->
  (forall a, In a items -> acceptsBit n a = true ->
             pathPermissionLess r a = true) ->
  hasBit n (resolved items) = false.
Proof.
  intros Hin Hrej Hbefore.
  destruct (Z.lt_ge_cases n 0) as [Hneg | Hpos]; [now apply hasBit_neg |].
  rewrite resolved_bits by assumption.
  destruct (grants n (sort_Slice _ pathPermissionLess items)) eqn:E;
    [| reflexivity].
  apply grants_unopposed in E; [| apply sort_Slice_ordered].
  destruct E as (a & Hina & Ha & Hno).
  pose proof (sort_Slice_perm items) as P.
  assert (Hlt : pathPermissionLess r a = true).
  { apply Hbefore; [now apply (Permutation_in _ P) | exact Ha]. }
  rewrite Hno in Hlt; [discriminate | | exact Hrej].
  now apply (Permutation_in _ (Permutation_sym P)).
Qed.

Lemma ordered_accept_grants n items a :
  ordered items -> In a items -> acceptsBit n a = true ->
  (forall r, In r items -> rejectsBit n r = true ->
             pathPermissionLess a r = true) ->
  grants n items = true.
Proof.
  induction 1 as [| x rest Hs IH Hall]; intros Hin Ha Hbefore; [destruct Hin |].
  cbn [grants]. destruct (acceptsBit n x) eqn:Ex; [reflexivity |].
  destruct Hin as [-> | Hin]; [congruence |].
  rewrite List.Forall_forall in Hall.
  destruct (rejectsBit n x) eqn:Er.
  - pose proof (Hbefore x (or_introl eq_refl) Er) as Hlt.
    rewrite (Hall a Hin) in Hlt. discriminate.
  - cbn [negb andb orb]. apply IH; auto.
    intros r Hr. apply Hbefore. now right.
Qed.

(** X5.  An accept of higher precedence wins: when a rule that accepts bit
    [n] sorts before every rule that rejects it, the result has the bit. *)
Theorem earlier_accept_grants (items : list PathPermission) (a : PathPermission)
  (n : Z) :
  In a items -> acceptsBit n a = true ->
  (forall r, In r items -> rejectsBit n r = true ->
             pathPermissionLess a r = true) ->
  hasBit n (resolved items) = true.
Proof.
  intros Hin Ha Hbefore.
  assert (Hn : 0 <= n).
  { destruct (Z.lt_ge_cases n 0) as [Hneg | Hpos]; [| lia].
    unfold acceptsBit in Ha. rewrite (hasBit_neg n _ Hneg), andb_false_r in Ha.
    discriminate. }
  rewrite resolved_bits by assumption.
  pose proof (sort_Slice_perm items) as P.
  apply (ordered_accept_grants n _ a).
  - apply sort_Slice_ordered.
  - now apply (Permutation_in _ (Permutation_sym P)).
  - exact Ha.
  - intros r Hr. apply Hbefore. now apply (Permutation_in _ P).
Qed.

Lemma earlier_reject_denies_witness :
  In (rule 2 Anonymous 0 false true 2) shallowAcceptDeepReject
  /\ rejectsBit 1 (rule 2 Anonymous 0 false true 2) = true
  /\ hasBit 1 (resolved shallowAcceptDeepReject) = false.
Proof.
  assert (Hin : In (rule 2 Anonymous 0 false true 2) shallowAcceptDeepReject)
    by (right; left; reflexivity).
  split; [exact Hin |]. split; [reflexivity |].
  refine (earlier_reject_denies shallowAcceptDeepReject
            (rule 2 Anonymous 0 false true 2) 1 Hin eq_refl _).
  intros a [<- | [<- | []]] Ha; [reflexivity | discriminate Ha].
Defined.

Lemma earlier_accept_grants_witness :
  In (rule 2 Anonymous 1 true false 3) exampleRules
  /\ acceptsBit 1 (rule 2 Anonymous 1 true false 3) = true
  /\ hasBit 1 (resolved exampleRules) = true.
Proof.
  assert (Hin : In (rule 2 Anonymous 1 true false 3) exampleRules)
    by (left; reflexivity).
  split; [exact Hin |]. split; [reflexivity |].
  refine (earlier_accept_grants exampleRules
            (rule 2 Anonymous 1 true false 3) 1 Hin eq_refl _).
  intros r [<- | [<- | []]] Hr; [discriminate Hr | reflexivity].
Defined.

End PermissionsFacts.

(** ** 2. Slash-separated paths *)

Module PathsFacts.

Import Paths.
Local Open Scope string_scope.

Example Clean_plain : Clean "/data//data/docs" = "/data/data/docs".
Proof. reflexivity. Qed.

Example Clean_dots : Clean "a/./b/../../../c/" = "../c".
Proof. reflexivity. Qed.

Example Clean_root : Clean "/.." = "/".
Proof. reflexivity. Qed.

Example Clean_empty : Clean EmptyString = ".".
Proof. reflexivity. Qed.

Example Clean_up : Clean "../../a/../.." = "../../..".
Proof. reflexivity. Qed.

Example Clean_back_to_start : Clean "a/.." = ".".
Proof. reflexivity. Qed.

Example Join_rooted : Join "/data" "/data/docs" = "/data/data/docs".
Proof. reflexivity. Qed.

Example Join_relative : Join "backup" "a.txt" = "backup/a.txt".
Proof. reflexivity. Qed.

End PathsFacts.

(** ** 3. Cross-drive copy engine *)

Module CopyEngineFacts.

Import CopyEngine.

Lemma EntryNode_ind (P : EntryNode -> Prop) :
  (forall entry children, Forall P children -> P (mkEntryNode entry children)) ->
  forall n, P n.
Proof.
  intros step. fix IH 1. intros [entry children]. apply step.
  induction children as [| c rest IHrest]; constructor; [apply IH | exact IHrest].
Qed.




Section CopyAllFacts.
Context {D : Type} `{IDrive D}.
Variable canceledAt : nat -> bool.
Variable CleanPath : string -> string.
Variable override : bool.
Variable after : IEntry -> bool -> D -> option Error * D.






Lemma finish_spec entry processed allProcessed (s : State D) :
  (exists err,
     fst (after entry allProcessed (drive s)) = Some err
     /\ fst (finish after entry processed allProcessed s) = (processed, false, Some err)
     /\ trace (snd (finish after entry processed allProcessed s))
        = trace s ++ [EvCallback entry allProcessed (Some err)])
  \/ (fst (after entry allProcessed (drive s)) = None
      /\ fst (finish after entry processed allProcessed s)
         = (processed + 1, allProcessed, None)
      /\ trace (snd (finish after entry processed allProcessed s))
         = trace s ++ [EvCallback entry allProcessed None;
                       EvProgress (processed + 1)]).
Proof.
  unfold finish. destruct (after entry allProcessed (drive s)) as [[err |] d]; simpl.
  - left. exists err. auto.
  - right. rewrite <- app_assoc. auto.
Qed.






Lemma copyFile_success entry to dst processed (s : State D) p allProcessed :
  fst (copyFile override entry to dst processed s)
    = Return (p, allProcessed, None) ->
  (exists dstType, dst = Some dstType /\ IsFile dstType = true)
  /\ override = false
  /\ p = processed + 1 /\ allProcessed = false
  /\ snd (copyFile override entry to dst processed s) = s.
Proof.
  unfold copyFile. destruct dst as [dstType |].
  - destruct dstType; cbn [IsDir IsFile].
    + destruct override; cbn [negb fst snd].
      * destruct (Content entry) as [[file | e] |]; try discriminate.
        destruct (Save (drive s) to file) as [[r | e] d]; discriminate.
      * intros [= <- <-]. eauto 10.
    + discriminate.
  - destruct (Content entry) as [[file | e] |]; try discriminate.
    destruct (Save (drive s) to file) as [[r | e] d]; discriminate.
Qed.



Lemma callbackEntries_app t1 t2 :
  callbackEntries (t1 ++ t2) = callbackEntries t1 ++ callbackEntries t2.
Proof. apply flat_map_app. Qed.

Lemma prepareDir_callbacks entry to dst (s : State D) :
  callbackEntries (trace (snd (prepareDir entry to dst s)))
  = callbackEntries (trace s).
Proof.
  unfold prepareDir. destruct dst as [dstType |].
  - now destruct (IsFile dstType).
  - destruct (MakeDir (drive s) to) as [r d].
    destruct r; cbn; now rewrite callbackEntries_app, app_nil_r.
Qed.

Lemma copyFile_callbacks entry to dst processed (s : State D) :
  callbackEntries (trace (snd (copyFile override entry to dst processed s)))
  = callbackEntries (trace s).
Proof.
  unfold copyFile.
  destruct (match dst with
            | Some dstType => _
            | None => None
            end) as [o |]; [reflexivity |].
  destruct (Content entry) as [[file | e] |]; try reflexivity.
  destruct (Save (drive s) to file) as [r d].
  destruct r; cbn; now rewrite callbackEntries_app, app_nil_r.
Qed.

Lemma copyFile_override entry to dst processed (s : State D) o :
  override = true ->
  fst (copyFile override entry to dst processed s) = Return o ->
  snd o <> None.
Proof.
  intros ->. unfold copyFile. destruct dst as [[|] |]; cbn [IsDir negb].
  - destruct (Content entry) as [[file | e] |]; cbn [fst];
      try (intros [= <-]; discriminate).
    destruct (Save (drive s) to file) as [[r | e] d]; cbn [fst];
      [discriminate | intros [= <-]; discriminate].
  - cbn [fst]. intros [= <-]. discriminate.
  - destruct (Content entry) as [[file | e] |]; cbn [fst];
      try (intros [= <-]; discriminate).
    destruct (Save (drive s) to file) as [[r | e] d]; cbn [fst];
      [discriminate | intros [= <-]; discriminate].
Qed.

Lemma finish_success entry processed allProcessed (s : State D) :
  snd (fst (finish after entry processed allProcessed s)) = None ->
  fst (finish after entry processed allProcessed s)
    = (processed + 1, allProcessed, None)
  /\ callbackEntries (trace (snd (finish after entry processed allProcessed s)))
     = callbackEntries (trace s) ++ [entry].
Proof.
  destruct (finish_spec entry processed allProcessed s)
    as [(err & _ & Ho & _) | (_ & Ho & Ht)]; rewrite Ho; [discriminate |].
  intros _. split; [reflexivity |]. rewrite Ht.
  now rewrite callbackEntries_app.
Qed.

Lemma copyChildren_success rec to dirCreate children :
  Forall (fun c => forall to np (s : State D),
            snd (fst (rec c to np s)) = None ->
            fst (fst (fst (rec c to np s))) = nodeCount c
            /\ (override = true -> snd (fst (fst (rec c to np s))) = true)
            /\ (snd (fst (fst (rec c to np s))) = true ->
                callbackEntries (trace (snd (rec c to np s)))
                = callbackEntries (trace s) ++ postorder c)) children ->
  forall processed allProcessed (s : State D),
    let r := copyChildren CleanPath rec to dirCreate children
               processed allProcessed s in
    snd (fst r) = None ->
    fst (fst (fst r))
      = processed + fold_right (fun c acc => nodeCount c + acc) 0 children
    /\ (override = true -> allProcessed = true -> snd (fst (fst r)) = true)
    /\ (snd (fst (fst r)) = true ->
        allProcessed = true
        /\ callbackEntries (trace (snd r))
           = callbackEntries (trace s)
               ++ fold_right (fun c acc => postorder c ++ acc) [] children).
Proof.
  induction 1 as [| c rest Hc _ IH]; intros processed allProcessed s; cbv zeta.
  - cbn. intros _. split; [lia |]. split; [auto |].
    intros ->. now rewrite app_nil_r.
  - cbn [copyChildren fold_right].
    specialize (Hc (CleanPath (Paths.Join to (Name (entryOf c)))) dirCreate s).
    destruct (rec c (CleanPath (Paths.Join to (Name (entryOf c)))) dirCreate s)
      as [[[p r] err] s1].
    cbn [fst snd] in Hc. destruct err as [err |]; [discriminate |].
    destruct (Hc eq_refl) as (Hp & Hov & Hcb). subst p.
    specialize (IH (processed + nodeCount c)
                   (if negb r then false else allProcessed)
                   (ctx_Progress (processed + nodeCount c) s1)).
    cbv zeta in IH. intros Hok. destruct (IH Hok) as (Hn & Hov' & Hcb').
    split; [rewrite Hn; lia |]. split.
    + intros Ho Ha. apply Hov'; [exact Ho |]. rewrite (Hov Ho). exact Ha.
    + intros Hflag. destruct (Hcb' Hflag) as (Hall & Htr).
      destruct r; cbn [negb] in Hall; [| discriminate].
      split; [exact Hall |]. rewrite Htr. cbn [ctx_Progress emit trace].
      rewrite callbackEntries_app, (Hcb eq_refl). cbn [callbackEntries flat_map].
      now rewrite app_nil_r, <- app_assoc.
Qed.

Lemma copyAll_success node : forall to newParent (s : State D),
  let r := copyAll canceledAt CleanPath override after node to newParent s in
  snd (fst r) = None ->
  fst (fst (fst r)) = nodeCount node
  /\ (override = true -> snd (fst (fst r)) = true)
  /\ (snd (fst (fst r)) = true ->
      callbackEntries (trace (snd r))
      = callbackEntries (trace s) ++ postorder node).
Proof.
  induction node as [entry children IH] using EntryNode_ind.
  intros to newParent s. cbv zeta. cbn [copyAll nodeCount postorder].
  unfold ctx_Canceled. destruct (canceledAt (polls s)); [discriminate |].
  set (s0 := mkState (drive s) (S (polls s)) (trace s)).
  destruct (probe newParent to s0) as [dst | e]; [| discriminate].
  destruct (IsDir (Type_ entry)) eqn:Edir.
  - pose proof (prepareDir_callbacks entry to dst s0) as Hprep.
    destruct (prepareDir entry to dst s0) as [[dirCreate | e] s1];
      [| discriminate].
    cbn [snd] in Hprep.
    pose proof (copyChildren_success
                  (copyAll canceledAt CleanPath override after)
                  to dirCreate children IH 0 true s1) as Hloop.
    cbv zeta in Hloop.
    destruct (copyChildren CleanPath
                (copyAll canceledAt CleanPath override after)
                to dirCreate children 0 true s1)
      as [[[processed allProcessed] err] s2].
    cbn [fst snd] in Hloop. destruct err as [err |]; [discriminate |].
    destruct (Hloop eq_refl) as (Hn & Hov & Hcb).
    replace (IsFile (Type_ entry)) with false by (now destruct (Type_ entry)).
    intros Hok. destruct (finish_success entry processed allProcessed s2 Hok)
      as (Ho & Htr).
    rewrite Ho, Htr. cbn [fst snd].
    split; [lia |]. split; [intros Hovr; now apply Hov |].
    intros Hflag. destruct (Hcb Hflag) as (_ & Hcbs).
    rewrite Hcbs, Hprep. cbn [s0 trace]. now rewrite <- app_assoc.
  - replace (IsFile (Type_ entry)) with true by (now destruct (Type_ entry)).
    pose proof (copyFile_callbacks entry to dst 0 s0) as Hcf.
    pose proof (copyFile_success entry to dst 0 s0) as Hskip.
    pose proof (copyFile_override entry to dst 0 s0) as Hovr.
    destruct (copyFile override entry to dst 0 s0) as [[[[p all] err] |] s1];
      cbn [fst snd] in *.
    + intros ->.
      destruct (Hskip p all eq_refl) as (_ & Hov & -> & -> & _).
      split; [reflexivity |]. split; [| discriminate].
      intros Ho. exfalso. apply (Hovr _ Ho eq_refl). reflexivity.
    + intros Hok. destruct (finish_success entry 0 true s1 Hok) as (Ho & Htr).
      rewrite Ho, Htr. cbn [fst snd].
      split; [reflexivity |]. split; [reflexivity |].
      intros _. now rewrite Hcf.
Qed.

(** X17.  The count that [copyAll] returns without error is the number of
    nodes of the tree, skipped files included. *)
Theorem copyAll_counts_every_node node to newParent (s : State D) :
  snd (fst (copyAll canceledAt CleanPath override after node to newParent s))
    = None ->
  fst (fst (fst (copyAll canceledAt CleanPath override after node to newParent s)))
    = nodeCount node.
Proof. intros Hok. now apply (copyAll_success node to newParent s). Qed.

(** X18.  With overwrite on nothing is skipped: a [copyAll] that returns
    without error returns the flag for fully processed as true. *)
Theorem copyAll_overwrite_processes_all node to newParent (s : State D) :
  override = true ->
  snd (fst (copyAll canceledAt CleanPath override after node to newParent s))
    = None ->
  snd (fst (fst (copyAll canceledAt CleanPath override after node to newParent s)))
    = true.
Proof. intros Hov Hok. now apply (copyAll_success node to newParent s). Qed.

(** X19.  When [copyAll] returns without error and with the flag for fully
    processed, the callback was called exactly once for every node, the
    children of a directory in their order and before the directory. *)
Theorem copyAll_callbacks_in_postorder node to newParent (s : State D) :
  snd (fst (copyAll canceledAt CleanPath override after node to newParent s))
    = None ->
  snd (fst (fst (copyAll canceledAt CleanPath override after node to newParent s)))
    = true ->
  callbackEntries
    (trace (snd (copyAll canceledAt CleanPath override after node to newParent s)))
  = callbackEntries (trace s) ++ postorder node.
Proof. intros Hok Hflag. now apply (copyAll_success node to newParent s). Qed.

(** X20.  A conflict of types writes nothing: when the probe finds a file
    where a directory is to be copied, or a directory where a file is to be
    copied, [copyAll] returns a not-allowed error with count 0, and the
    drive and the trace are as before. *)
Theorem copyAll_type_conflict entry children to (s : State D) dst :
  canceledAt (polls s) = false ->
  Get (drive s) to = Ok dst ->
  IsFile (Type_ entry) = negb (IsFile (Type_ dst)) ->
  exists msg,
    copyAll canceledAt CleanPath override after (mkEntryNode entry children)
      to false s
    = ((0, false, Some (NotAllowed msg)),
       mkState (drive s) (S (polls s)) (trace s)).
Proof.
  intros Hlive Hget Hdiff. cbn [copyAll]. unfold ctx_Canceled. rewrite Hlive.
  unfold probe. cbn [drive]. rewrite Hget.
  destruct (Type_ entry), (Type_ dst); try discriminate;
    cbn [IsDir IsFile prepareDir copyFile]; eauto.
Qed.

End CopyAllFacts.




Example BuildEntriesTree_threeFiles :
  BuildEntriesTree neverCanceled threeFilesListing 2 (entryOf threeFiles)
    (initial (∅ : gmap string MemObject))
  = Some (Ok threeFiles, mkState ∅ 4%nat [EvTotal 1; EvTotal 4]).
Proof. vm_compute. reflexivity. Qed.

(** C3: the counts that reach the progress sink while [CopyAll] copies a
    directory of three files to an empty drive.  Every call of [copyAll]
    starts its own count at zero and reports it to the sink it shares with
    its caller, so the report of the third file, 1, follows the report 2 of
    the directory. *)
Lemma progress_counts_go_backwards :
  exists s,
    CopyAll neverCanceled exampleCleanPath threeFilesListing 2
      (entryOf threeFiles) "dst" true None
      (initial (∅ : gmap string MemObject)) = Some (None, s)
    /\ progressCounts (trace s) = [1; 1; 1; 2; 1; 3; 4]
    /\ nondecreasing (progressCounts (trace s)) = false.
Proof.
  eexists. split; [vm_compute; reflexivity |].
  split; vm_compute; reflexivity.
Qed.

Section BuildFacts.
Context {D : Type}.
Variable canceledAt : nat -> bool.
Variable List_ : IEntry -> Result (list IEntry).

Lemma buildEntriesTree_S fuel entry total (s : State D) :
  buildEntriesTree canceledAt List_ (S fuel) entry total s
  = (let '(canceled, s) := ctx_Canceled canceledAt s in
     if canceled then Some (Err Canceled, s)
     else if IsFile (Type_ entry) then Some (Ok (mkEntryNode entry []), s)
     else
       match List_ entry with
       | Err e => Some (Err e, s)
       | Ok entries =>
         let total := total + Z.of_nat (length entries) in
         let s := ctx_Total total s in
         match eachEntry (buildEntriesTree canceledAt List_ fuel) total
                 entries s with
         | None => None
         | Some (Err err, s) => Some (Err err, s)
         | Some (Ok children, s) => Some (Ok (mkEntryNode entry children), s)
         end
       end).
Proof. reflexivity. Qed.

Lemma onlyTotals_refl (s s' : State D) :
  drive s' = drive s -> trace s' = trace s -> onlyTotals s s'.
Proof.
  intros Hd Ht. split; [exact Hd |]. exists []. now rewrite Ht, app_nil_r.
Qed.

Lemma onlyTotals_trans (s1 s2 s3 : State D) :
  onlyTotals s1 s2 -> onlyTotals s2 s3 -> onlyTotals s1 s3.
Proof.
  intros (Hd1 & t1 & Ht1) (Hd2 & t2 & Ht2). split; [congruence |].
  exists (t1 ++ t2). now rewrite Ht2, Ht1, map_app, app_assoc.
Qed.

Lemma eachEntry_onlyTotals rec total :
  (forall e tot (s : State D) r s',
     rec e tot s = Some (r, s') -> onlyTotals s s') ->
  forall entries (s : State D) r s',
    eachEntry rec total entries s = Some (r, s') -> onlyTotals s s'.
Proof.
  intros Hrec. induction entries as [| e rest IH]; intros s r s'.
  - cbn. intros [= _ <-]. now apply onlyTotals_refl.
  - cbn [eachEntry]. destruct (rec e total s) as [[[node | err] s1] |] eqn:E;
      [| intros [= _ <-]; now apply (Hrec _ _ _ _ _ E) | discriminate].
    apply Hrec in E.
    destruct (eachEntry rec total rest s1) as [[[nodes | err] s2] |] eqn:E2;
      [| | discriminate]; intros [= _ <-];
      apply (onlyTotals_trans _ _ _ E), (IH _ _ _ E2).
Qed.

Lemma buildEntriesTree_onlyTotals fuel :
  forall entry total (s : State D) r s',
    buildEntriesTree canceledAt List_ fuel entry total s = Some (r, s') ->
    onlyTotals s s'.
Proof.
  induction fuel as [| fuel IH]; intros entry total s r s'; [discriminate |].
  rewrite buildEntriesTree_S. unfold ctx_Canceled.
  destruct (canceledAt (polls s));
    [intros [= _ <-]; now apply onlyTotals_refl |].
  destruct (IsFile (Type_ entry));
    [intros [= _ <-]; now apply onlyTotals_refl |].
  destruct (List_ entry) as [entries | e];
    [| intros [= _ <-]; now apply onlyTotals_refl].
  cbv zeta.
  set (s1 := ctx_Total (total + Z.of_nat (length entries))
               (mkState (drive s) (S (polls s)) (trace s))).
  assert (H1 : onlyTotals s s1).
  { split; [reflexivity |].
    exists [total + Z.of_nat (length entries)]. reflexivity. }
  destruct (eachEntry (buildEntriesTree canceledAt List_ fuel)
              (total + Z.of_nat (length entries)) entries s1)
    as [[[children | err] s2] |] eqn:E; [| | discriminate];
    intros [= _ <-]; apply (onlyTotals_trans _ _ _ H1);
    apply (eachEntry_onlyTotals _ _ IH _ _ _ _ E).
Qed.

Lemma nodeCount_pos n : 1 <= nodeCount n.
Proof.
  induction n as [entry children IH] using EntryNode_ind. cbn [nodeCount].
  destruct (IsDir (Type_ entry)); [| lia].
  induction IH as [| c rest Hc _ IHrest]; cbn [fold_right]; lia.
Qed.

Lemma nodeCount_sum_ge_length (l : list EntryNode) :
  Z.of_nat (length l) <= fold_right (fun c acc => nodeCount c + acc) 0 l.
Proof.
  induction l as [| c rest IH]; cbn [fold_right length]; [lia |].
  pose proof (nodeCount_pos c). lia.
Qed.

Lemma eachEntry_sound rec total :
  (forall e tot (s : State D) t s',
     rec e tot s = Some (Ok t, s') ->
     entryOf t = e /\ isSnapshot List_ t
     /\ Z.of_nat (polls s') = Z.of_nat (polls s) + nodeCount t
     /\ exists totals,
          trace s' = trace s ++ map EvTotal totals
          /\ Forall (fun n => tot <= n <= tot + nodeCount t - 1) totals) ->
  forall entries (s : State D) children s',
    eachEntry rec total entries s = Some (Ok children, s') ->
    map entryOf children = entries
    /\ fold_right (fun c acc => isSnapshot List_ c /\ acc) True children
    /\ Z.of_nat (polls s')
       = Z.of_nat (polls s)
         + fold_right (fun c acc => nodeCount c + acc) 0 children
    /\ exists totals,
         trace s' = trace s ++ map EvTotal totals
         /\ Forall (fun n =>
                      total <= n
                      <= total
                         + fold_right (fun c acc => nodeCount c + acc) 0 children
                         - Z.of_nat (length children)) totals.
Proof.
  intros Hrec.
  induction entries as [| e rest IH]; intros s children s'.
  - cbn [eachEntry]. intros [= <- <-]. cbn [map fold_right length].
    split; [reflexivity |]. split; [exact I |]. split; [lia |].
    exists []. cbn [map]. rewrite app_nil_r.
    split; [reflexivity | constructor].
  - cbn [eachEntry]. destruct (rec e total s) as [[[node | err] s1] |] eqn:E;
      [| discriminate | discriminate].
    destruct (eachEntry rec total rest s1) as [[[nodes | err] s2] |] eqn:E2;
      [| discriminate | discriminate].
    intros [= <- <-].
    destruct (Hrec _ _ _ _ _ E) as (He & Hsnap & Hpolls & t1 & Ht1 & Htot).
    destruct (IH _ _ _ E2) as (Hmap & Hsnaps & Hpolls2 & t2 & Ht2 & Htot2).
    cbn [map fold_right length]. split; [congruence |]. split; [auto |].
    split; [lia |].
    exists (t1 ++ t2). split; [now rewrite Ht2, Ht1, map_app, app_assoc |].
    pose proof (nodeCount_pos node) as Hpos.
    pose proof (nodeCount_sum_ge_length nodes) as Hsum.
    apply Forall_app. split.
    + eapply List.Forall_impl; [| exact Htot]. cbn beta. intros n Hn. lia.
    + eapply List.Forall_impl; [| exact Htot2]. cbn beta. intros n Hn. lia.
Qed.

Lemma buildEntriesTree_sound fuel :
  forall entry total (s : State D) t s',
    buildEntriesTree canceledAt List_ fuel entry total s = Some (Ok t, s') ->
    entryOf t = entry /\ isSnapshot List_ t
    /\ Z.of_nat (polls s') = Z.of_nat (polls s) + nodeCount t
    /\ exists totals,
         trace s' = trace s ++ map EvTotal totals
         /\ Forall (fun n => total <= n <= total + nodeCount t - 1) totals.
Proof.
  induction fuel as [| fuel IH]; intros entry total s t s'; [discriminate |].
  rewrite buildEntriesTree_S. unfold ctx_Canceled.
  destruct (canceledAt (polls s)); [discriminate |].
  destruct (IsFile (Type_ entry)) eqn:Efile.
  - intros [= <- <-]. cbn [entryOf isSnapshot nodeCount polls trace].
    rewrite Efile. replace (IsDir (Type_ entry)) with false
      by (now destruct (Type_ entry)).
    split; [reflexivity |]. split; [reflexivity |]. split; [lia |].
    exists []. cbn. rewrite app_nil_r. split; [reflexivity | constructor].
  - destruct (List_ entry) as [entries | e] eqn:Elist; [| discriminate].
    cbv zeta.
    set (total' := total + Z.of_nat (length entries)).
    set (s1 := ctx_Total total' (mkState (drive s) (S (polls s)) (trace s))).
    destruct (eachEntry (buildEntriesTree canceledAt List_ fuel) total'
                entries s1) as [[[children | err] s2] |] eqn:E;
      [| discriminate | discriminate].
    intros [= <- <-].
    destruct (eachEntry_sound _ total' IH _ _ _ _ E)
      as (Hmap & Hsnaps & Hpolls & t2 & Ht2 & Htot).
    cbn [entryOf isSnapshot nodeCount]. rewrite Efile.
    replace (IsDir (Type_ entry)) with true by (now destruct (Type_ entry)).
    split; [reflexivity |]. split; [split; [congruence | exact Hsnaps] |].
    split; [cbn [s1 ctx_Total emit polls] in Hpolls; lia |].
    assert (Hlen : length entries = length children)
      by (rewrite <- Hmap; now rewrite length_map).
    pose proof (nodeCount_sum_ge_length children) as Hsum.
    exists (total' :: t2). split.
    + rewrite Ht2. cbn [s1 ctx_Total emit trace map].
      now rewrite <- app_assoc.
    + constructor; [unfold total'; lia |].
      eapply List.Forall_impl; [| exact Htot]. cbn beta. intros n Hn.
      unfold total' in Hn. lia.
Qed.

Lemma eachEntry_complete fuel total children :
  Forall (fun c => isSnapshot List_ c ->
            forall fuel tot (s : State D), (height c <= fuel)%nat ->
              exists s', buildEntriesTree canceledAt List_ fuel (entryOf c) tot s
                         = Some (Ok c, s')) children ->
  fold_right (fun c acc => isSnapshot List_ c /\ acc) True children ->
  (fold_right (fun c acc => Nat.max (height c) acc) O children <= fuel)%nat ->
  forall s : State D,
    exists s', eachEntry (buildEntriesTree canceledAt List_ fuel) total
                 (map entryOf children) s = Some (Ok children, s').
Proof.
  induction 1 as [| c rest Hc _ IH]; cbn [fold_right map]; intros Hsnap Hh s.
  - cbn. eauto.
  - destruct Hsnap as (Hs & Hsnaps). cbn [eachEntry].
    destruct (Hc Hs fuel total s ltac:(lia)) as (s1 & ->).
    destruct (IH Hsnaps ltac:(lia) s1) as (s2 & ->). eauto.
Qed.

(** X21.  A snapshot that succeeds is the tree of the listing: its root is
    the entry asked for, every file is a leaf, the children of every other
    node are the entries that the listing gives for it, in that order, and
    [Canceled] was asked once for every node. *)
Theorem buildEntriesTree_is_snapshot fuel entry total (s : State D) t s' :
  buildEntriesTree canceledAt List_ fuel entry total s = Some (Ok t, s') ->
  entryOf t = entry /\ isSnapshot List_ t
  /\ Z.of_nat (polls s') = Z.of_nat (polls s) + nodeCount t.
Proof.
  intros E. destruct (buildEntriesTree_sound fuel _ _ _ _ _ E)
    as (H1 & H2 & H3 & _). auto.
Qed.

(** X22.  The totals reported while the snapshot is taken never exceed the
    number of nodes: a [BuildEntriesTree] that succeeds adds to the trace
    only reports of totals, and every count it hands to [ctx.Total] lies
    between 1 and the number of nodes of the tree it returns. *)
Theorem BuildEntriesTree_totals_bounded fuel root (s : State D) t s' :
  BuildEntriesTree canceledAt List_ fuel root s = Some (Ok t, s') ->
  exists totals,
    trace s' = trace s ++ map EvTotal totals
    /\ Forall (fun n => 1 <= n <= nodeCount t) totals.
Proof.
  unfold BuildEntriesTree. intros E.
  destruct (buildEntriesTree_sound fuel _ _ _ _ _ E)
    as (_ & _ & _ & t2 & Ht2 & Htot).
  pose proof (nodeCount_pos t) as Hpos.
  exists (1 :: t2). split.
  - rewrite Ht2. cbn [ctx_Total emit trace map]. now rewrite <- app_assoc.
  - constructor; [lia |].
    eapply List.Forall_impl; [| exact Htot]. cbn beta. intros n Hn. lia.
Qed.

(** X23.  Without cancellation and with fuel for the height of the tree, the
    snapshot of a source whose listing is a finite tree returns that
    tree. *)
Theorem buildEntriesTree_complete t :
  (forall k, canceledAt k = false) ->
  isSnapshot List_ t ->
  forall fuel total (s : State D), (height t <= fuel)%nat ->
    exists s', buildEntriesTree canceledAt List_ fuel (entryOf t) total s
               = Some (Ok t, s').
Proof.
  intros Hlive.
  induction t as [entry children IH] using EntryNode_ind.
  intros Hsnap fuel total s Hh. cbn [height] in Hh.
  destruct fuel as [| fuel]; [lia |].
  rewrite buildEntriesTree_S. unfold ctx_Canceled. rewrite Hlive.
  cbn [entryOf isSnapshot] in *.
  destruct (IsFile (Type_ entry)); [subst children; eauto |].
  destruct Hsnap as (-> & Hsnaps). cbv zeta.
  edestruct (eachEntry_complete fuel) as (s2 & ->); eauto.
  lia.
Qed.

(** X24.  The snapshot phase writes nothing: whatever [BuildEntriesTree]
    returns, the drive is as before and the trace has grown by reports of
    totals only; when it fails, [CopyAll] returns its error without having
    called the destination. *)
Theorem CopyAll_snapshot_error_writes_nothing `{IDrive D} CleanPath fuel entry
  to override after (s : State D) e s1 :
  BuildEntriesTree canceledAt List_ fuel entry s = Some (Err e, s1) ->
  CopyAll canceledAt CleanPath List_ fuel entry to override after s
    = Some (Some e, s1)
  /\ onlyTotals s s1.
Proof.
  intros E. unfold CopyAll. rewrite E. split; [reflexivity |].
  unfold BuildEntriesTree in E.
  apply buildEntriesTree_onlyTotals in E.
  refine (onlyTotals_trans s (ctx_Total 1 s) s1 _ E).
  split; [reflexivity |]. exists [1]. reflexivity.
Qed.

End BuildFacts.

Lemma copyAll_counts_every_node_witness :
  snd (fst threeFilesRun) = None
  /\ fst (fst (fst threeFilesRun)) = nodeCount threeFiles.
Proof.
  assert (E : snd (fst threeFilesRun) = None) by (vm_compute; reflexivity).
  split; [exact E |].
  exact (copyAll_counts_every_node neverCanceled exampleCleanPath true
           noCallback threeFiles "dst" false
           (initial (∅ : gmap string MemObject)) E).
Defined.

Lemma copyAll_overwrite_processes_all_witness :
  true = true
  /\ snd (fst threeFilesRun) = None
  /\ snd (fst (fst threeFilesRun)) = true.
Proof.
  assert (E : snd (fst threeFilesRun) = None) by (vm_compute; reflexivity).
  split; [reflexivity |]. split; [exact E |].
  exact (copyAll_overwrite_processes_all neverCanceled exampleCleanPath true
           noCallback threeFiles "dst" false
           (initial (∅ : gmap string MemObject)) eq_refl E).
Defined.

Lemma copyAll_callbacks_in_postorder_witness :
  snd (fst threeFilesRun) = None
  /\ snd (fst (fst threeFilesRun)) = true
  /\ callbackEntries (trace (snd threeFilesRun))
     = callbackEntries (trace (initial (∅ : gmap string MemObject)))
         ++ postorder threeFiles.
Proof.
  assert (E : snd (fst threeFilesRun) = None) by (vm_compute; reflexivity).
  assert (F : snd (fst (fst threeFilesRun)) = true) by (vm_compute; reflexivity).
  split; [exact E |]. split; [exact F |].
  exact (copyAll_callbacks_in_postorder neverCanceled exampleCleanPath true
           noCallback threeFiles "dst" false
           (initial (∅ : gmap string MemObject)) E F).
Defined.

Lemma copyAll_type_conflict_witness :
  neverCanceled (polls (initial withDir)) = false
  /\ Get (drive (initial withDir)) "dst" = Ok (memEntry "dst" MemDir)
  /\ IsFile (Type_ (entryOf (file "a" [Byte.x61])))
     = negb (IsFile (Type_ (memEntry "dst" MemDir)))
  /\ exists msg,
       copyAll neverCanceled exampleCleanPath false noCallback
         (file "a" [Byte.x61]) "dst" false (initial withDir)
       = ((0, false, Some (NotAllowed msg)), mkState withDir 1%nat []).
Proof.
  assert (G : Get (drive (initial withDir)) "dst" = Ok (memEntry "dst" MemDir))
    by (vm_compute; reflexivity).
  split; [reflexivity |]. split; [exact G |]. split; [reflexivity |].
  exact (copyAll_type_conflict neverCanceled exampleCleanPath false noCallback
           (mkIEntry "a" "a" TypeFile (Some (Ok [Byte.x61]))) []
           "dst" (initial withDir) (memEntry "dst" MemDir)
           eq_refl G eq_refl).
Defined.

Lemma threeFiles_built :
  buildEntriesTree neverCanceled threeFilesListing 2 (entryOf threeFiles) 1
    (ctx_Total 1 (initial (∅ : gmap string MemObject)))
  = Some (Ok threeFiles, mkState ∅ 4%nat [EvTotal 1; EvTotal 4]).
Proof. vm_compute. reflexivity. Qed.

Lemma buildEntriesTree_is_snapshot_witness :
  buildEntriesTree neverCanceled threeFilesListing 2 (entryOf threeFiles) 1
    (ctx_Total 1 (initial (∅ : gmap string MemObject)))
  = Some (Ok threeFiles, mkState ∅ 4%nat [EvTotal 1; EvTotal 4])
  /\ entryOf threeFiles = entryOf threeFiles
  /\ isSnapshot threeFilesListing threeFiles
  /\ Z.of_nat 4 = Z.of_nat 0 + nodeCount threeFiles.
Proof.
  split; [exact threeFiles_built |].
  exact (buildEntriesTree_is_snapshot neverCanceled threeFilesListing 2
           (entryOf threeFiles) 1
           (ctx_Total 1 (initial (∅ : gmap string MemObject)))
           threeFiles (mkState ∅ 4%nat [EvTotal 1; EvTotal 4])
           threeFiles_built).
Defined.

Lemma threeFiles_snapshot_taken :
  BuildEntriesTree neverCanceled threeFilesListing 2 (entryOf threeFiles)
    (initial (∅ : gmap string MemObject))
  = Some (Ok threeFiles, mkState ∅ 4%nat [EvTotal 1; EvTotal 4]).
Proof. vm_compute. reflexivity. Qed.

Lemma BuildEntriesTree_totals_bounded_witness :
  BuildEntriesTree neverCanceled threeFilesListing 2 (entryOf threeFiles)
    (initial (∅ : gmap string MemObject))
  = Some (Ok threeFiles, mkState ∅ 4%nat [EvTotal 1; EvTotal 4])
  /\ exists totals,
       [EvTotal 1; EvTotal 4] = [] ++ map EvTotal totals
       /\ Forall (fun n => 1 <= n <= nodeCount threeFiles) totals.
Proof.
  split; [exact threeFiles_snapshot_taken |].
  exact (BuildEntriesTree_totals_bounded neverCanceled threeFilesListing 2
           (entryOf threeFiles) (initial (∅ : gmap string MemObject))
           threeFiles (mkState ∅ 4%nat [EvTotal 1; EvTotal 4])
           threeFiles_snapshot_taken).
Defined.

Lemma threeFiles_isSnapshot : isSnapshot threeFilesListing threeFiles.
Proof. cbn. repeat split. Qed.

Lemma buildEntriesTree_complete_witness :
  (forall k, neverCanceled k = false)
  /\ isSnapshot threeFilesListing threeFiles
  /\ (height threeFiles <= 2)%nat
  /\ exists s',
       buildEntriesTree neverCanceled threeFilesListing 2 (entryOf threeFiles)
         1 (initial (∅ : gmap string MemObject))
       = Some (Ok threeFiles, s').
Proof.
  assert (Hh : (height threeFiles <= 2)%nat) by (cbn; lia).
  split; [reflexivity |]. split; [exact threeFiles_isSnapshot |].
  split; [exact Hh |].
  exact (buildEntriesTree_complete neverCanceled threeFilesListing threeFiles
           (fun _ => eq_refl) threeFiles_isSnapshot 2%nat 1
           (initial (∅ : gmap string MemObject)) Hh).
Defined.

Lemma noListing_snapshot_fails :
  BuildEntriesTree neverCanceled noListing 1 (entryOf threeFiles)
    (initial (∅ : gmap string MemObject))
  = Some (Err NotFound, mkState ∅ 1%nat [EvTotal 1]).
Proof. vm_compute. reflexivity. Qed.

Lemma CopyAll_snapshot_error_writes_nothing_witness :
  BuildEntriesTree neverCanceled noListing 1 (entryOf threeFiles)
    (initial (∅ : gmap string MemObject))
  = Some (Err NotFound, mkState ∅ 1%nat [EvTotal 1])
  /\ CopyAll neverCanceled exampleCleanPath noListing 1 (entryOf threeFiles)
       "dst" true None (initial (∅ : gmap string MemObject))
     = Some (Some NotFound, mkState ∅ 1%nat [EvTotal 1])
  /\ onlyTotals (initial (∅ : gmap string MemObject))
                (mkState ∅ 1%nat [EvTotal 1]).
Proof.
  split; [exact noListing_snapshot_fails |].
  exact (CopyAll_snapshot_error_writes_nothing neverCanceled noListing
           exampleCleanPath 1 (entryOf threeFiles) "dst" true None
           (initial (∅ : gmap string MemObject)) NotFound
           (mkState ∅ 1%nat [EvTotal 1]) noListing_snapshot_fails).
Defined.

End CopyEngineFacts.

(** ** 4. Content delivery *)

Module DeliveryFacts.

Import CopyEngine Delivery.

(** The redirect branch on any writer that has not sent its header yet: the
    call returns nil, status 302 goes out with the header map as it was
    before the call, no body byte is written, and [Location] is set in the
    handler's map only after the header was written. *)
Lemma redirect_branch parse content url w :
  GetURL content = Ok (url, false) ->
  sent w = None ->
  let r := DownloadIContent parse content w in
  fst r = None
  /\ sent (snd r) = Some (302, header w)
  /\ body (snd r) = body w
  /\ served (snd r) = served w
  /\ header (snd r) = <[ "Location"%string := url ]> (header w).
Proof.
  intros Hurl Hsent. unfold DownloadIContent. rewrite Hurl. cbn.
  unfold WriteHeader. rewrite Hsent. cbn. auto.
Qed.

(** X15.  The streaming branch of the same function sets its header first
    and writes afterwards, so [Content-Length] does go out: for content
    without a URL whose reader cannot seek, the response has status 200,
    the declared size as [Content-Length] and the bytes of the reader as
    body, and the error of the reader is returned. *)
Lemma stream_branch parse content reader w :
  GetURL content = Err Unsupported ->
  GetReader content = Ok reader ->
  readerSeeks reader = false ->
  readerBytes reader <> [] ->
  sent w = None ->
  let r := DownloadIContent parse content w in
  fst r = readerError reader
  /\ statusSent (snd r) = Some 200
  /\ headerSent "Content-Length" (snd r) = Some (FormatInt (Size content))
  /\ body (snd r) = body w ++ readerBytes reader.
Proof.
  intros Hurl Hreader Hseek Hbytes Hsent. unfold DownloadIContent.
  rewrite Hurl, Hreader, Hseek. unfold io_Copy.
  destruct (readerBytes reader) as [| b bytes]; [contradiction |].
  unfold headerSent, statusSent, Write, WriteHeader, Header_Set.
  cbn [fst snd sent header body served]. rewrite Hsent.
  cbn [fst snd sent header body served].
  repeat split. apply lookup_insert_eq.
Qed.

(** C6: the redirect for an entry with a direct URL, on a fresh response.
    [WriteHeader(302)] runs before [Header().Set] adds [Location], so the
    response that goes out has status 302 and no [Location] header; the call
    returns nil and writes no body. *)
Lemma redirect_goes_out_without_location :
  let r := DownloadIContent parseAny (direct "http://cdn.example/f") freshResponse in
  fst r = None
  /\ statusSent (snd r) = Some 302
  /\ body (snd r) = []
  /\ headerSent "Location" (snd r) = None
  /\ header (snd r) !! "Location"%string = Some "http://cdn.example/f"%string.
Proof. vm_compute. repeat split; reflexivity. Qed.

Lemma stream_branch_witness :
  GetURL (Staging.streamed Staging.goodReader) = Err Unsupported
  /\ GetReader (Staging.streamed Staging.goodReader) = Ok Staging.goodReader
  /\ readerSeeks Staging.goodReader = false
  /\ readerBytes Staging.goodReader <> []
  /\ sent freshResponse = None
  /\ headerSent "Content-Length"
       (snd (DownloadIContent parseAny (Staging.streamed Staging.goodReader)
               freshResponse))
     = Some "2"%string.
Proof.
  assert (Hne : readerBytes Staging.goodReader <> []) by discriminate.
  split; [reflexivity |]. split; [reflexivity |]. split; [reflexivity |].
  split; [exact Hne |]. split; [reflexivity |].
  exact (proj1 (proj2 (proj2
           (stream_branch parseAny (Staging.streamed Staging.goodReader)
              Staging.goodReader freshResponse
              eq_refl eq_refl eq_refl Hne eq_refl)))).
Defined.


End DeliveryFacts.

(** ** 5. The local file-system drive *)

Module FsDriveFacts.

Import CopyEngine FsDrive.
Local Open Scope string_scope.

Example getPath_docs : getPath dataDrive "docs" = "/data/docs".
Proof. reflexivity. Qed.

Example getPath_twice :
  getPath dataDrive (getPath dataDrive "docs") = "/data/data/docs".
Proof. reflexivity. Qed.

Example MakeDir_creates :
  fst (MakeDir dataDrive 3000 dataFs "new")
  = Entry (mkFsFile "new" 4096 true 3000).
Proof. vm_compute. reflexivity. Qed.

(** C5: [MakeDir] at a path where a directory exists.  [MakeDir] resolves
    the path against the root and, finding it present, hands the resolved
    path to [Get], which resolves it against the root once more: the lookup
    goes to [/data/data/docs] and the call fails with not-found, where [Get]
    of the same path returns the entry. *)
Lemma MakeDir_of_existing_directory_fails :
  Get dataDrive dataFs "docs" = Entry (mkFsFile "docs" 4096 true 2000)
  /\ MakeDir dataDrive 3000 dataFs "docs" = (Failed NotFound, dataFs).
Proof. vm_compute. split; reflexivity. Qed.

Section DriveFacts.
Variable f : FsDrive.






(** X28.  [Save] without overwrite leaves what exists alone: when something
    is at the path, it returns the not-allowed error for an existing file
    and the file system is as before. *)
Theorem Save_refuses_existing now (fs : FileSystem) p reader :
  FileExists fs (getPath f p) = true ->
  Save f now fs p false reader
  = (Failed (NotAllowed "drive.file_exists"), fs).
Proof.
  intros Hex. unfold Save, requireFile. cbn [negb andb]. now rewrite Hex.
Qed.

(** X29.  What [Save] returns is what [Get] then finds: when [Save] returns
    an entry, it is a file whose size is the number of bytes read, and
    [Get] of the same path on the new file system returns the same
    entry. *)
Theorem Save_then_Get now (fs : FileSystem) p override reader e fs' :
  Save f now fs p override reader = (Entry e, fs') ->
  isDir e = false
  /\ size e = Z.of_nat (length (Delivery.readerBytes reader))
  /\ Get f fs' p = Entry e.
Proof.
  unfold Save.
  destruct (if negb override then requireFile fs (getPath f p) false else None);
    [discriminate |].
  destruct (os_OpenFile fs (getPath f p) now) as [fs1 |]; [| discriminate].
  unfold drive_util_Copy.
  destruct (Delivery.readerError reader); [discriminate |].
  unfold Get, os_Stat, FileSystem in *. rewrite lookup_insert_eq.
  intros [= Hnew <-]. rewrite lookup_insert_eq.
  split; [| split; [| exact Hnew]]; unfold newFsFile in Hnew;
    destruct (negb (Paths.HasPrefix (filepath_Abs (getPath f p)) (path f)));
    try discriminate; now injection Hnew as <-.
Qed.

End DriveFacts.



Lemma Save_refuses_existing_witness :
  FileExists dataFs (getPath dataDrive "docs") = true
  /\ Save dataDrive 3000 dataFs "docs" false Staging.goodReader
     = (Failed (NotAllowed "drive.file_exists"), dataFs).
Proof.
  assert (Hex : FileExists dataFs (getPath dataDrive "docs") = true)
    by (vm_compute; reflexivity).
  split; [exact Hex |].
  exact (Save_refuses_existing dataDrive 3000 dataFs "docs" Staging.goodReader
           Hex).
Defined.

Lemma Save_then_Get_witness :
  Save dataDrive 3000 dataFs "docs/a.txt" true Staging.goodReader
  = (Entry (mkFsFile "docs/a.txt" 2 false 3000),
     <["/data/docs/a.txt" := mkFileInfo 2 false 3000]>
       (<["/data/docs/a.txt" := mkFileInfo 0 false 3000]> dataFs))
  /\ Get dataDrive
       (<["/data/docs/a.txt" := mkFileInfo 2 false 3000]>
          (<["/data/docs/a.txt" := mkFileInfo 0 false 3000]> dataFs))
       "docs/a.txt"
     = Entry (mkFsFile "docs/a.txt" 2 false 3000).
Proof.
  assert (Hrun : Save dataDrive 3000 dataFs "docs/a.txt" true Staging.goodReader
                 = (Entry (mkFsFile "docs/a.txt" 2 false 3000),
                    <["/data/docs/a.txt" := mkFileInfo 2 false 3000]>
                      (<["/data/docs/a.txt" := mkFileInfo 0 false 3000]> dataFs)))
    by (vm_compute; reflexivity).
  split; [exact Hrun |].
  exact (proj2 (proj2 (Save_then_Get dataDrive 3000 dataFs "docs/a.txt" true
                         Staging.goodReader _ _ Hrun))).
Defined.

End FsDriveFacts.

(** ** 6. Unwrapping entries *)

Module WrappersFacts.

Import Wrappers.

Lemma Entry_ind {A} (P : Entry A -> Prop) :
  (forall a, P (Plain a)) ->
  (forall a, P (Wrapper a None)) ->
  (forall a e, P e -> P (Wrapper a (Some e))) ->
  forall e, P e.
Proof.
  intros Hplain Hnil Hwrap. fix IH 1. intros [a | a [e |]].
  - apply Hplain.
  - apply Hwrap, IH.
  - apply Hnil.
Qed.

Lemma last_of_cons {B} (l : list B) a d d' :
  List.last (a :: l) d = List.last (a :: l) d'.
Proof.
  revert a. induction l as [| b l IH]; intros a; [reflexivity |].
  change (List.last (b :: l) d = List.last (b :: l) d'). apply IH.
Qed.

Lemma last_layers_wrapper {A} (a : A) (e : Entry A) :
  List.last (layers (Wrapper a (Some e))) (Wrapper a (Some e))
  = List.last (layers e) e.
Proof.
  cbn [layers]. destruct e as [b | b i]; cbn [layers];
    change (List.last (?x :: ?y :: ?l) ?d) with (List.last (y :: l) d);
    apply last_of_cons.
Qed.

(** X6.  Without a test [GetIEntry] unwraps all the way: it returns the
    entry at the bottom of the chain of wrappers when that entry is plain,
    and nil when the innermost wrapper wraps nil. *)
Theorem GetIEntry_without_test {A} (e : Entry A) :
  GetIEntry (Some e) None
  = (if isPlain (List.last (layers e) e)
     then Some (List.last (layers e) e) else None).
Proof.
  cbn [GetIEntry].
  induction e as [a | a | a e IH] using Entry_ind; try reflexivity.
  rewrite last_layers_wrapper. exact IH.
Qed.

(** X7.  With a test [GetIEntry] returns the outermost entry of the chain
    that passes the test, and nil when none does. *)
Theorem GetIEntry_with_test {A} (e : Entry A)
  (test : option (Entry A) -> bool) :
  GetIEntry (Some e) (Some test)
  = find (fun layer => test (Some layer)) (layers e).
Proof.
  cbn [GetIEntry].
  induction e as [a | a | a e IH] using Entry_ind.
  - cbn. now destruct (test (Some (Plain a))).
  - cbn. destruct (test (Some (Wrapper a None))); [reflexivity |].
    now destruct (test None).
  - cbn [unwrap passes layers find].
    destruct (test (Some (Wrapper a (Some e)))); [reflexivity | exact IH].
Qed.

Example GetIEntry_bottom : GetIEntry (Some wrapped3) None = Some (Plain 3%nat).
Proof. reflexivity. Qed.

Example GetIEntry_middle :
  GetIEntry (Some wrapped3) (Some (onPayload (Nat.eqb 2)))
  = Some (Wrapper 2%nat (Some (Plain 3%nat))).
Proof. reflexivity. Qed.

End WrappersFacts.

(** ** 7. Copying content *)

Module StagingFacts.

Import CopyEngine Delivery Staging.

(** X8.  [CopyWithProgress] returns after at most two rounds of its loop,
    and the error it returns is nil or the cancellation error, never the
    error of the copy. *)
Theorem CopyWithProgress_returns canceledAt fuel dst src ctx :
  exists n err dst' ctx',
    CopyWithProgress canceledAt (S (S fuel)) dst src ctx
    = Some ((n, err), dst', ctx')
    /\ (err = None \/ err = Some Canceled).
Proof.
  unfold CopyWithProgress. cbn [copyLoop ctx_Canceled].
  destruct (canceledAt (ctxPolls ctx)); [eauto 10 |].
  unfold io_CopyBuffer. cbn [readerBytes readerError readerSeeks ctxPolls].
  destruct (readerError src) as [e |] eqn:Eerr; [eauto 10 |].
  destruct (Z.of_nat (length (readerBytes src)) =? 0); [eauto 10 |].
  cbn [ctx_Progress ctxPolls ctxProgress].
  destruct (canceledAt (S (ctxPolls ctx))); [eauto 10 |].
  cbn [length Z.of_nat Z.eqb]. eauto 10.
Qed.

Lemma copy_error_is_dropped canceledAt fuel dst src ctx e :
  canceledAt (ctxPolls ctx) = false ->
  readerError src = Some e ->
  CopyWithProgress canceledAt (S fuel) dst src ctx
  = Some ((0, None), dst ++ readerBytes src,
          mkCtx (S (ctxPolls ctx)) (ctxProgress ctx)).
Proof.
  intros Hlive Herr. unfold CopyWithProgress. cbn [copyLoop ctx_Canceled].
  rewrite Hlive. unfold io_CopyBuffer. now rewrite Herr.
Qed.

(** X9.  A copy that fails is reported as a success: when [io.CopyBuffer]
    returns an error, [CopyWithProgress] returns count 0 and nil, with the
    bytes that got across left in the writer and no progress reported. *)
Theorem CopyWithProgress_swallows_copy_error canceledAt fuel dst src ctx e :
  canceledAt (ctxPolls ctx) = false ->
  readerError src = Some e ->
  CopyWithProgress canceledAt (S fuel) dst src ctx
  = Some ((0, None), dst ++ readerBytes src,
          mkCtx (S (ctxPolls ctx)) (ctxProgress ctx)).
Proof. apply copy_error_is_dropped. Qed.

Lemma CopyWithProgress_swallows_copy_error_witness :
  neverCanceled (ctxPolls freshCtx) = false
  /\ readerError brokenReader = Some (IOError "reset")
  /\ CopyWithProgress neverCanceled 1 [] brokenReader freshCtx
     = Some ((0, None), [] ++ readerBytes brokenReader, mkCtx 1 []).
Proof.
  split; [reflexivity |]. split; [reflexivity |].
  exact (CopyWithProgress_swallows_copy_error neverCanceled 0 [] brokenReader
           freshCtx (IOError "reset") eq_refl eq_refl).
Defined.

(** X10.  A copy that is neither cancelled nor failing returns the length of
    the source and nil, appends the source to the writer and reports the
    length once; an empty source reports nothing. *)
Theorem CopyWithProgress_copies_all canceledAt fuel dst src ctx :
  canceledAt (ctxPolls ctx) = false ->
  canceledAt (S (ctxPolls ctx)) = false ->
  readerError src = None ->
  CopyWithProgress canceledAt (S (S fuel)) dst src ctx
  = Some ((Z.of_nat (length (readerBytes src)), None),
          dst ++ readerBytes src,
          match readerBytes src with
          | [] => mkCtx (S (ctxPolls ctx)) (ctxProgress ctx)
          | _ => mkCtx (S (S (ctxPolls ctx)))
                       (ctxProgress ctx ++ [Z.of_nat (length (readerBytes src))])
          end).
Proof.
  intros Hlive1 Hlive2 Herr. unfold CopyWithProgress.
  cbn [copyLoop ctx_Canceled]. rewrite Hlive1.
  unfold io_CopyBuffer. rewrite Herr.
  cbn [readerBytes readerError readerSeeks].
  destruct (readerBytes src) as [| b bytes] eqn:Eb.
  - reflexivity.
  - replace (Z.of_nat (length (b :: bytes)) =? 0) with false
      by (symmetry; apply Z.eqb_neq; cbn [length]; lia).
    cbn [ctx_Progress ctxPolls ctxProgress]. rewrite Hlive2.
    cbn [length Z.of_nat Z.eqb]. now rewrite app_nil_r, Z.add_0_l.
Qed.

Lemma CopyWithProgress_copies_all_witness :
  neverCanceled (ctxPolls freshCtx) = false
  /\ neverCanceled (S (ctxPolls freshCtx)) = false
  /\ readerError goodReader = None
  /\ CopyWithProgress neverCanceled 2 [] goodReader freshCtx
     = Some ((2, None), helloBytes, mkCtx 2 [2]).
Proof.
  split; [reflexivity |]. split; [reflexivity |]. split; [reflexivity |].
  exact (CopyWithProgress_copies_all neverCanceled 0 [] goodReader freshCtx
           eq_refl eq_refl eq_refl).
Defined.

(** X11.  A cancellation that is seen only after the whole source was copied
    still fails the copy: the count and the writer are complete, the
    progress was reported, and the error is the cancellation error. *)
Theorem CopyWithProgress_late_cancel canceledAt fuel dst src ctx :
  canceledAt (ctxPolls ctx) = false ->
  canceledAt (S (ctxPolls ctx)) = true ->
  readerError src = None ->
  readerBytes src <> [] ->
  CopyWithProgress canceledAt (S (S fuel)) dst src ctx
  = Some ((Z.of_nat (length (readerBytes src)), Some Canceled),
          dst ++ readerBytes src,
          mkCtx (S (S (ctxPolls ctx)))
                (ctxProgress ctx ++ [Z.of_nat (length (readerBytes src))])).
Proof.
  intros Hlive1 Hdead2 Herr Hbytes. unfold CopyWithProgress.
  cbn [copyLoop ctx_Canceled]. rewrite Hlive1.
  unfold io_CopyBuffer. rewrite Herr.
  destruct (readerBytes src) as [| b bytes] eqn:Eb; [contradiction |].
  replace (Z.of_nat (length (b :: bytes)) =? 0) with false
    by (symmetry; apply Z.eqb_neq; cbn [length]; lia).
  cbn [ctx_Progress ctxPolls ctxProgress]. rewrite Hdead2.
  now rewrite Z.add_0_l.
Qed.

Lemma CopyWithProgress_late_cancel_witness :
  Nat.eqb 1 (ctxPolls freshCtx) = false
  /\ Nat.eqb 1 (S (ctxPolls freshCtx)) = true
  /\ readerError goodReader = None
  /\ readerBytes goodReader <> []
  /\ CopyWithProgress (Nat.eqb 1) 2 [] goodReader freshCtx
     = Some ((2, Some Canceled), helloBytes, mkCtx 2 [2]).
Proof.
  assert (Hne : readerBytes goodReader <> []) by discriminate.
  split; [reflexivity |]. split; [reflexivity |]. split; [reflexivity |].
  split; [exact Hne |].
  exact (CopyWithProgress_late_cancel (Nat.eqb 1) 0 [] goodReader freshCtx
           eq_refl eq_refl eq_refl Hne).
Defined.

(** X12.  Content with a URL is fetched from the URL, whatever its flag for
    must-proxy and whether or not it has a reader; a response whose status
    is not 200 gives count -1 and the remote-API error with that status,
    and nothing is written or polled. *)
Theorem CopyIContent_bad_status canceledAt http_Get fuel content w ctx
  url proxy status body :
  GetURL content = Ok (url, proxy) ->
  http_Get url = Ok (status, body) ->
  status <> 200 ->
  CopyIContent canceledAt http_Get fuel content w ctx
  = Some ((-1, Some (RemoteApi status "failed to copy file")), w, ctx).
Proof.
  intros Hurl Hget Hstatus. unfold CopyIContent. rewrite Hurl, Hget.
  now apply Z.eqb_neq in Hstatus as ->.
Qed.

Lemma CopyIContent_bad_status_witness :
  GetURL (direct "http://cdn.example/f") = Ok ("http://cdn.example/f"%string, false)
  /\ http404 "http://cdn.example/f" = Ok (404, goodReader)
  /\ 404 <> 200
  /\ CopyIContent neverCanceled http404 2 (direct "http://cdn.example/f")
       [] freshCtx
     = Some ((-1, Some (RemoteApi 404 "failed to copy file")), [], freshCtx).
Proof.
  assert (Hne : 404 <> 200) by discriminate.
  split; [reflexivity |]. split; [reflexivity |]. split; [exact Hne |].
  exact (CopyIContent_bad_status neverCanceled http404 2
           (direct "http://cdn.example/f") [] freshCtx
           "http://cdn.example/f" false 404 goodReader eq_refl eq_refl Hne).
Defined.

(** X13.  [CopyIContentToTempFile] leaves no file behind when it fails: with
    a fresh name for the temporary file, the directory of temporary files
    after an error holds what it held before; after a success it holds one
    file more, under the returned name. *)
Theorem CopyIContentToTempFile_cleans_up canceledAt http_Get tempErr seekErr
  fuel content ctx t r ctx' t' :
  tempFiles t !! nextTemp t = None ->
  CopyIContentToTempFile canceledAt http_Get tempErr seekErr fuel content ctx t
  = Some (r, ctx', t') ->
  match r with
  | Err _ => tempFiles t' = tempFiles t
  | Ok name =>
    name = nextTemp t
    /\ exists bytes, tempFiles t' = <[name := bytes]> (tempFiles t)
  end.
Proof.
  intros Hfresh. unfold CopyIContentToTempFile.
  destruct tempErr as [e |]; [now intros [= <- _ <-] |].
  destruct (CopyIContent canceledAt http_Get fuel content [] ctx)
    as [[[[n [e |]] bytes] ctx1] |]; [| | discriminate].
  - intros [= <- _ <-]. cbn [tempFiles]. now apply delete_id.
  - destruct seekErr as [e |].
    + intros [= <- _ <-]. cbn [tempFiles]. now apply delete_id.
    + intros [= <- _ <-]. cbn [tempFiles]. eauto.
Qed.

Lemma CopyIContentToTempFile_cleans_up_witness :
  tempFiles emptyTempDir !! nextTemp emptyTempDir = None
  /\ CopyIContentToTempFile neverCanceled noHttp None None 2 unreadable
       freshCtx emptyTempDir
     = Some (Err (NotAllowed "no reader"), freshCtx, mkTempDir (delete O ∅) 1)
  /\ tempFiles (mkTempDir (delete O ∅) 1) = tempFiles emptyTempDir.
Proof.
  assert (Hfresh : tempFiles emptyTempDir !! nextTemp emptyTempDir = None)
    by reflexivity.
  assert (Hrun : CopyIContentToTempFile neverCanceled noHttp None None 2
                   unreadable freshCtx emptyTempDir
                 = Some (Err (NotAllowed "no reader"), freshCtx,
                         mkTempDir (delete O ∅) 1))
    by reflexivity.
  split; [exact Hfresh |]. split; [exact Hrun |].
  exact (CopyIContentToTempFile_cleans_up neverCanceled noHttp None None 2
           unreadable freshCtx emptyTempDir _ _ _ Hfresh Hrun).
Defined.

(** X14.  A transfer that breaks in mid-stream is staged as if it were
    complete: for content read through a reader that fails after some
    bytes, [CopyIContentToTempFile] returns the temporary file, holding the
    bytes read before the failure, and no error. *)
Theorem CopyIContentToTempFile_stages_truncated canceledAt http_Get
  fuel content ctx t reader e e' :
  GetURL content = Err e' ->
  GetReader content = Ok reader ->
  readerError reader = Some e ->
  canceledAt (ctxPolls ctx) = false ->
  CopyIContentToTempFile canceledAt http_Get None None (S fuel) content ctx t
  = Some (Ok (nextTemp t), mkCtx (S (ctxPolls ctx)) (ctxProgress ctx),
          mkTempDir (<[nextTemp t := readerBytes reader]> (tempFiles t))
                    (S (nextTemp t))).
Proof.
  intros Hurl Hreader Herr Hlive. unfold CopyIContentToTempFile, CopyIContent.
  rewrite Hurl, Hreader.
  now rewrite (copy_error_is_dropped
                 canceledAt fuel [] reader ctx e Hlive Herr).
Qed.

Lemma CopyIContentToTempFile_stages_truncated_witness :
  GetURL (streamed brokenReader) = Err Unsupported
  /\ GetReader (streamed brokenReader) = Ok brokenReader
  /\ readerError brokenReader = Some (IOError "reset")
  /\ neverCanceled (ctxPolls freshCtx) = false
  /\ CopyIContentToTempFile neverCanceled noHttp None None 1
       (streamed brokenReader) freshCtx emptyTempDir
     = Some (Ok O, mkCtx 1 [],
             mkTempDir (<[O := readerBytes brokenReader]> ∅) 1).
Proof.
  split; [reflexivity |]. split; [reflexivity |]. split; [reflexivity |].
  split; [reflexivity |].
  exact (CopyIContentToTempFile_stages_truncated neverCanceled noHttp 0
           (streamed brokenReader) freshCtx emptyTempDir brokenReader
           (IOError "reset") Unsupported eq_refl eq_refl eq_refl eq_refl).
Defined.

End StagingFacts.
